(** * lab_setup: the lifecycle handler of the DeFtunes lab environment

    A shallow embedding of [src/lamda_function/lab_setup.py] and the
    properties of its teardown orchestrator and lifecycle handler.

    The module talks to AWS (Glue, IAM, S3, STS), to a PostgreSQL server
    through SQLAlchemy, to [sqlparse] and to [cfnresponse].  None of these is
    part of the file; each call to them is an [action] whose outcome is chosen
    by an oracle, the [world], from the whole history of the process so far.
    A computation maps a history to the actions it appends and to its
    outcome: a value or a raised exception.  [try]/[except], [with] and
    [for] are combinators on such computations.

    What the embedding takes for granted:
    - an exception is an instance of [Exception] (nothing raises
      [KeyboardInterrupt] or [SystemExit]);
    - [logger.info], [logger.warning] and [logger.error] write a record and
      return;
    - a response either has the shape the code reads from it or makes the
      read raise [TypeError];
    - [cfnresponse.send] is a collaborator like the others: the world
      decides whether it returns or raises. *)

From Stdlib Require Import String Ascii List ZArith Lia Bool.
From stdpp Require Import base option list gmap strings.

Import ListNotations.
Local Open Scope string_scope.
Local Open Scope list_scope.

(** ** Exceptions, responses and actions *)

(** Every constructor stands for a subclass of Python's [Exception]: the
    errors of botocore, SQLAlchemy and psycopg2 and the built-in lookup and
    conversion errors all are.  [except ClientError] tells [ClientError]
    from the rest; [except Exception] catches them all. *)
Inductive exn : Type :=
| KeyError (key : string)
| AttributeError (attr : string)
| TypeError
| ValueError
| ClientError (code : string)
| OtherError (what : string).

Definition is_ClientError (e : exn) : bool :=
  match e with ClientError _ => true | _ => false end.

(** [cfnresponse.SUCCESS] and [cfnresponse.FAILED]. *)
Inductive status : Type := SUCCESS | FAILED.

Definition status_eqb (a b : status) : bool :=
  match a, b with
  | SUCCESS, SUCCESS | FAILED, FAILED => true
  | _, _ => false
  end.

(** What a collaborator hands back.  [RNames] is the shape of the three
    enumerations, a dict holding a list of dicts with a ['Name'] each, and
    of the list of statements of [sqlparse.split]; [RCreds] is the
    ['Credentials'] dict of [assume_role]. *)
Inductive resp : Type :=
| Raised (e : exn)
| RNone
| RNames (names : list string)
| RText (text : string)
| RCreds (AccessKeyId SecretAccessKey SessionToken : string).

Definition is_raised (r : resp) : bool :=
  match r with Raised _ => true | _ => false end.

(** The calls the module makes, named after the client and its method.
    [s3_object_versions_delete b] stands for
    [s3_resource.Bucket(b).object_versions.delete()], [body_read_decode r]
    for [r["Body"].read().decode("utf-8")], [conn_execute s] for
    [conn.execute(sa.text(s).execution_options(autocommit=True))] and
    [conn_close] for leaving the [with] block of the connection. *)
Inductive call : Type :=
| glue_list_data_quality_rulesets
| glue_delete_data_quality_ruleset (Name : string)
| glue_delete_job (JobName : string)
| glue_get_databases
| glue_get_tables (DatabaseName : string)
| glue_delete_table (DatabaseName Name : string)
| glue_delete_database (Name : string)
| glue_delete_connection (ConnectionName : string)
| iam_delete_role_policy (RoleName PolicyName : string)
| iam_delete_role (RoleName : string)
| boto3_resource (service : string)
| s3_object_versions_delete (bucket : string)
| boto3_client (service : string)
| s3_get_object (Bucket Key : string)
| body_read_decode (response : resp)
| sqlparse_split (sql : string)
| sa_create_engine (url : string)
| engine_connect
| conn_execute (statement : string)
| conn_close
| sts_client_assume_role (RoleArn RoleSessionName : string)
| cfnresponse_send (event : gmap string string) (responseStatus : status).

Inductive level : Type := INFO | WARNING | ERROR.

(** One constructor per logging line of the file, with the values the
    message interpolates. *)
Inductive logmsg : Type :=
| LEmptyBucketError (bucket : string) (e : exn)
| LDeletedTable (db tbl : string)
| LErrorDetails (e : exn)
| LCouldntDeleteTable (db tbl : string)
| LDeletedDatabase (db : string)
| LCouldntDeleteDatabase (db : string)
| LFailedRulesets (e : exn)
| LDeletedJob (job : string)
| LJobNotExist (job : string) (e : exn)
| LFailedDatabases (e : exn)
| LDeletedConnection (conn : string)
| LConnectionNotExist (conn : string) (e : exn)
| LDeletedPolicy (policy role : string)
| LCannotDeletePolicy (policy role : string) (e : exn)
| LDeletedRole (role : string)
| LRoleNotFound (role : string) (e : exn)
| LRoleOrPolicyNotExist (e : exn)
| LEvent (event : gmap string string)
| LSqlAlchemyVersion
| LResponse (r : resp)
| LCurlCommand (curl_data : list (string * string)) (url : string)
| LError (e : exn).

(** What the process does that can be seen from outside: it calls a
    collaborator and gets a response, or it writes a log record. *)
Inductive action : Type :=
| Call (c : call) (r : resp)
| Log (lvl : level) (msg : logmsg).

Definition history := list action.

(** The environment of one process: the outcome of a call, given all that
    happened before it. *)
Definition world := history -> call -> resp.

(** ** Computations *)

Inductive result (A : Type) : Type :=
| Ok (a : A)
| Raise (e : exn).
Arguments Ok {A} a.
Arguments Raise {A} e.

Definition is_raise {A} (r : result A) : bool :=
  match r with Raise _ => true | Ok _ => false end.

(** A computation: from the history to the actions appended and the outcome. *)
Definition M (A : Type) : Type := history -> list action * result A.

Definition ret {A} (a : A) : M A := fun _ => ([], Ok a).

Definition raise {A} (e : exn) : M A := fun _ => ([], Raise e).

Definition bind {A B} (m : M A) (f : A -> M B) : M B :=
  fun h =>
    let '(t1, r1) := m h in
    match r1 with
    | Ok a => let '(t2, r2) := f a (h ++ t1) in (t1 ++ t2, r2)
    | Raise e => (t1, Raise e)
    end.

(** stdpp's monad notations: [x ← m; k] and [m;; k]. *)
#[global] Instance M_ret : MRet M := @ret.
#[global] Instance M_bind : MBind M := fun A B f m => bind m f.

(** [try: body except Exception as e: handler e]. *)
Definition try_except {A} (body : M A) (handler : exn -> M A) : M A :=
  fun h =>
    let '(t1, r1) := body h in
    match r1 with
    | Ok a => (t1, Ok a)
    | Raise e => let '(t2, r2) := handler e (h ++ t1) in (t1 ++ t2, r2)
    end.

(** [try: body except ClientError as e: handler e]: any other exception
    passes through. *)
Definition try_except_ClientError {A} (body : M A) (handler : exn -> M A) : M A :=
  try_except body (fun e => if is_ClientError e then handler e else raise e).

(** [with ... : body], as far as leaving the block goes: [leave] runs
    whether the body raised or not; an exception of [leave] replaces the
    body's, and otherwise the body's outcome stands. *)
Definition finally {A} (body : M A) (leave : M unit) : M A :=
  fun h =>
    let '(t1, r1) := body h in
    let '(t2, r2) := leave (h ++ t1) in
    (t1 ++ t2, match r2 with Raise e => Raise e | Ok _ => r1 end).

(** [for x in l: body x]. *)
Fixpoint for_each {A} (l : list A) (body : A -> M unit) : M unit :=
  match l with
  | [] => ret tt
  | x :: l' => body x;; for_each l' body
  end.

Definition log (lvl : level) (msg : logmsg) : M unit :=
  fun _ => ([Log lvl msg], Ok tt).

(** [d[key]] on the event dict. *)
Definition subscript (d : gmap string string) (key : string) : M string :=
  match d !! key with
  | Some v => ret v
  | None => raise (KeyError key)
  end.

(** The enumeration a response holds; a response of another shape makes
    the subscript on it raise. *)
Definition names_of (r : resp) : M (list string) :=
  match r with
  | RNames l => ret l
  | _ => raise TypeError
  end.

Definition text_of (r : resp) : M string :=
  match r with
  | RText s => ret s
  | _ => raise TypeError
  end.

Definition creds_of (r : resp) : M (string * string * string) :=
  match r with
  | RCreds a s t => ret (a, s, t)
  | _ => raise TypeError
  end.

(** ** Configuration (lines 13-24) *)

Definition environ := gmap string string.

(** [os.getenv(key, default)]. *)
Definition os_getenv (env : environ) (key dflt : string) : string :=
  default dflt (env !! key).

(** The white space [int] skips around an ASCII numeral: tab, line feed,
    vertical tab, form feed, carriage return and space. *)
Definition is_space (c : ascii) : bool :=
  let n := nat_of_ascii c in
  ((9 <=? n) && (n <=? 13) || (n =? 32))%nat.

Fixpoint lstrip (s : string) : string :=
  match s with
  | String c s' => if is_space c then lstrip s' else s
  | EmptyString => EmptyString
  end.

Definition strip (s : string) : string :=
  String.rev (lstrip (String.rev (lstrip s))).

Definition digit_of (c : ascii) : option Z :=
  let n := Z.of_nat (nat_of_ascii c) in
  if ((48 <=? n) && (n <=? 57))%Z then Some (n - 48)%Z else None.

(** Decimal digits, single underscores allowed between two digits. *)
Fixpoint parse_digits (s : string) (acc : Z) (after_digit : bool) : option Z :=
  match s with
  | EmptyString => if after_digit then Some acc else None
  | String c s' =>
      match digit_of c with
      | Some d => parse_digits s' (10 * acc + d)%Z true
      | None =>
          if Ascii.eqb c "_" && after_digit
          then parse_digits s' acc false
          else None
      end
  end.

(** [sys.int_max_str_digits] as the interpreter starts with it: the most
    digits [int] converts. *)
Definition int_max_str_digits : nat := 4300.

(** The digits of a numeral; the sign and the underscores do not count. *)
Fixpoint count_digits (s : string) : nat :=
  match s with
  | EmptyString => 0
  | String c s' =>
      match digit_of c with
      | Some _ => S (count_digits s')
      | None => count_digits s'
      end
  end.

(** [int(s)] on an ASCII string: surrounding white space, an optional
    sign, decimal digits, [int_max_str_digits] of them at most.  Anything
    else, the empty string included, is a [ValueError]. *)
Definition py_int (s : string) : result Z :=
  let body := strip s in
  let parsed :=
    match body with
    | String "+" d => parse_digits d 0 false
    | String "-" d => Z.opp <$> parse_digits d 0 false
    | _ => parse_digits body 0 false
    end in
  match parsed with
  | Some z =>
      if (count_digits body <=? int_max_str_digits)%nat then Ok z
      else Raise ValueError
  | None => Raise ValueError
  end.

Record config : Type := {
  DBHOST : string;
  DBPORT : Z;
  DBNAME : string;
  DBUSER : string;
  DBPASSWORD : string;
  BUCKET_NAME : string;
  OBJECT_KEY : string;
  IAM_ROLE_ARN : string;
  BUCKET_PATH : string;
  ACCOUNT_ID : string;
  PROJECT : string;
  REGION : string
}.

(** The module-level assignments, in their order: the first one that raises
    ends the import of the module. *)
Definition load_config (env : environ) : result config :=
  let dbhost := os_getenv env "DBHOST" "" in
  match py_int (os_getenv env "DBPORT" "") with
  | Raise e => Raise e
  | Ok dbport =>
      Ok {| DBHOST := dbhost;
            DBPORT := dbport;
            DBNAME := os_getenv env "DBDATABASE" "postgres";
            DBUSER := os_getenv env "DBUSER" "";
            DBPASSWORD := os_getenv env "DBPASSWORD" "";
            BUCKET_NAME := os_getenv env "BUCKET_NAME" "";
            OBJECT_KEY := os_getenv env "OBJECT_KEY" "";
            IAM_ROLE_ARN := os_getenv env "IAM_ROLE_ARN" "";
            BUCKET_PATH := os_getenv env "BUCKET_PATH" "labs/cfn_dependencies/c4w4a1/csv";
            ACCOUNT_ID := os_getenv env "ACCOUNT_ID" "";
            PROJECT := os_getenv env "PROJECT" "de-c4w4a1";
            REGION := os_getenv env "REGION" "us-east-1" |}
  end.

Definition CREATE : string := "Create".
Definition DELETE : string := "Delete".

(** [response_data = {}] *)
Definition response_data : list (string * string) := [].

(** ** The module (lines 38-228) *)

Definition nl : string := String (ascii_of_nat 10) EmptyString.

(** [format_load.format(bucket_name=..., bucket_path=..., access_key=...,
    secret_key=..., session_token=...)] (lines 160-164 and 191-197). *)
Definition format_load
    (bucket_name bucket_path access_key secret_key session_token : string) : string :=
  "SELECT aws_s3.table_import_from_s3(" +:+ nl +:+
  "   'deftunes.songs', '', '(format csv, HEADER true)'," +:+ nl +:+
  "   aws_commons.create_s3_uri('" +:+ bucket_name +:+ "','" +:+ bucket_path +:+
  "/songs.csv','us-east-1')," +:+ nl +:+
  "   aws_commons.create_aws_credentials('" +:+ access_key +:+ "', '" +:+
  secret_key +:+ "', '" +:+ session_token +:+ "')" +:+ nl +:+
  ");".

Section LabSetup.

(** The environment, and the configuration the import of the module left
    in its globals. *)
Variable w : world.
Variable cfg : config.

(** A call to a collaborator: the world answers from the history; a
    [Raised] answer is an exception at the call site. *)
Definition invoke (c : call) : M resp :=
  fun h =>
    let r := w h c in
    ([Call c r], match r with Raised e => Raise e | _ => Ok r end).

Definition glue_jobs : list string :=
  [ PROJECT cfg +:+ "-api-users-extract-job";
    PROJECT cfg +:+ "-api-sessions-extract-job";
    PROJECT cfg +:+ "-rds-extract-job";
    PROJECT cfg +:+ "-json-transform-job";
    PROJECT cfg +:+ "-songs-transform-job" ].

Definition bucket_name_of (suffix : string) : string :=
  PROJECT cfg +:+ "-" +:+ ACCOUNT_ID cfg +:+ "-" +:+ REGION cfg +:+ "-" +:+ suffix.

Definition s3_buckets : list string :=
  [ bucket_name_of "scripts";
    bucket_name_of "data-lake";
    bucket_name_of "dags";
    bucket_name_of "dbt" ].

(** Lines 49-54. *)
Definition sts_assume_role (role_arn : string) : M (string * string * string) :=
  session_creds ← invoke (sts_client_assume_role role_arn "CreatePostgresSession");
  creds_of session_creds.

(** Lines 57-64. *)
Definition empty_bucket (bucket_name : string) : M unit :=
  try_except
    (invoke (boto3_resource "s3");;
     invoke (s3_object_versions_delete bucket_name);;
     mret tt)
    (fun e => log WARNING (LEmptyBucketError bucket_name e)).

(** Lines 67-77. *)
Definition delete_table (database_name table_name : string) : M unit :=
  try_except
    (invoke (glue_delete_table database_name table_name);;
     log INFO (LDeletedTable database_name table_name))
    (fun e =>
       log WARNING (LErrorDetails e);;
       log INFO (LCouldntDeleteTable database_name table_name)).

(** Lines 80-89. *)
Definition delete_database (database_name : string) : M unit :=
  try_except
    (invoke (glue_delete_database database_name);;
     log INFO (LDeletedDatabase database_name))
    (fun e =>
       log WARNING (LErrorDetails e);;
       log INFO (LCouldntDeleteDatabase database_name)).

(** Lines 94-103.  In the loop, [glue_rulesets] is the dict that
    [list_data_quality_rulesets] returned, not the client: looking up
    [delete_data_quality_ruleset] on it raises [AttributeError] before
    any call is made. *)
Definition cleanup_rulesets : M unit :=
  try_except
    (glue_rulesets ← invoke glue_list_data_quality_rulesets;
     glue_rulesets_list ← names_of glue_rulesets;
     for_each glue_rulesets_list (fun glue_ruleset_name =>
       raise (AttributeError "delete_data_quality_ruleset")))
    (fun e => log INFO (LFailedRulesets e)).

(** Lines 105-111. *)
Definition cleanup_jobs : M unit :=
  for_each glue_jobs (fun job_name =>
    try_except
      (invoke (glue_delete_job job_name);;
       log INFO (LDeletedJob job_name))
      (fun e => log INFO (LJobNotExist job_name e))).

(** Lines 119-124: one database of the walk. *)
Definition walk_database (glue_database_name : string) : M unit :=
  glue_tables ← invoke (glue_get_tables glue_database_name);
  glue_table_list ← names_of glue_tables;
  for_each glue_table_list (fun glue_table_name =>
    delete_table glue_database_name glue_table_name);;
  delete_database glue_database_name.

(** Lines 112-127. *)
Definition cleanup_catalog : M unit :=
  try_except
    (glue_databases ← invoke glue_get_databases;
     glue_database_list ← names_of glue_databases;
     for_each glue_database_list (fun glue_database_name =>
       if bool_decide ("default" = glue_database_name) then mret tt
       else walk_database glue_database_name))
    (fun e => log INFO (LFailedDatabases e)).

Definition connection_name : string := PROJECT cfg +:+ "-connection-rds".

(** Lines 129-135. *)
Definition cleanup_connection : M unit :=
  try_except
    (invoke (glue_delete_connection connection_name);;
     log INFO (LDeletedConnection connection_name))
    (fun e => log INFO (LConnectionNotExist connection_name e)).

Definition iam_role : string := PROJECT cfg +:+ "-glue-role".
Definition iam_policy : string := PROJECT cfg +:+ "-glue-role-policy".

(** Lines 137-157. *)
Definition cleanup_iam : M unit :=
  try_except_ClientError
    (try_except
       (invoke (iam_delete_role_policy iam_role iam_policy);;
        log INFO (LDeletedPolicy iam_policy iam_role))
       (fun e => log INFO (LCannotDeletePolicy iam_policy iam_role e));;
     try_except
       (invoke (iam_delete_role iam_role);;
        log INFO (LDeletedRole iam_role))
       (fun e => log INFO (LRoleNotFound iam_role e)))
    (fun e => log INFO (LRoleOrPolicyNotExist e)).

(** Lines 92-157: the five blocks of the function, one after the other. *)
Definition terraform_cleanup : M unit :=
  cleanup_rulesets;;
  cleanup_jobs;;
  cleanup_catalog;;
  cleanup_connection;;
  cleanup_iam.

Definition engine_url : string :=
  "postgresql+psycopg2://" +:+ DBUSER cfg +:+ ":" +:+ DBPASSWORD cfg +:+
  "@" +:+ DBHOST cfg +:+ "/" +:+ DBNAME cfg.

Definition execute (statement : string) : M unit :=
  invoke (conn_execute statement);; mret tt.

(** Lines 186-200: the body of the [with] block. *)
Definition populate (split : resp) : M unit :=
  sql_list ← names_of split;
  for_each sql_list execute;;
  session_token ← sts_assume_role (IAM_ROLE_ARN cfg);
  let '(access_key, secret_key, token) := session_token in
  execute (format_load (BUCKET_NAME cfg) (BUCKET_PATH cfg) access_key secret_key token).

(** Lines 172-200: fetch the script, split it, run it, import the CSV. *)
Definition load_dataset : M unit :=
  log INFO LSqlAlchemyVersion;;
  invoke (boto3_client "s3");;
  response ← invoke (s3_get_object (BUCKET_NAME cfg) (OBJECT_KEY cfg));
  log INFO (LResponse response);;
  body ← invoke (body_read_decode response);
  sql_statement ← text_of body;
  split ← invoke (sqlparse_split sql_statement);
  invoke (sa_create_engine engine_url);;
  invoke engine_connect;;
  finally (populate split) (invoke conn_close;; mret tt).

(** Lines 171-200: the Create branch. *)
Definition provisioning_step : M unit :=
  terraform_cleanup;;
  load_dataset.

(** Lines 203-224: the Delete branch. *)
Definition delete_step (event : gmap string string) : M unit :=
  for_each s3_buckets empty_bucket;;
  physical ← subscript event "PhysicalResourceId";
  stack ← subscript event "StackId";
  request ← subscript event "RequestId";
  logical ← subscript event "LogicalResourceId";
  let curl_data :=
    [ ("Status", "SUCCESS");
      ("PhysicalResourceId", physical);
      ("StackId", stack);
      ("RequestId", request);
      ("LogicalResourceId", logical) ] in
  url ← subscript event "ResponseURL";
  log INFO (LCurlCommand curl_data url).

(** Lines 170-224: what the [try] block does before it reports. *)
Definition dispatch (event : gmap string string) : M unit :=
  request_type ← subscript event "RequestType";
  (if bool_decide (request_type = CREATE) then provisioning_step else mret tt);;
  request_type ← subscript event "RequestType";
  (if bool_decide (request_type = DELETE) then delete_step event else mret tt).

(** Lines 167-228.  [context] is only handed on to [cfnresponse.send]
    and is left out. *)
Definition lambda_handler (event : gmap string string) : M unit :=
  log WARNING (LEvent event);;
  try_except
    (dispatch event;;
     invoke (cfnresponse_send event SUCCESS);;
     mret tt)
    (fun exc =>
       log ERROR (LError exc);;
       invoke (cfnresponse_send event FAILED);;
       mret tt).

End LabSetup.

(** ** Observing a run *)

Definition trace {A} (m : M A) (h : history) : list action := (m h).1.
Definition outcome {A} (m : M A) (h : history) : result A := (m h).2.

(** The calls of a trace, in order, without their responses. *)
Definition calls (t : list action) : list call :=
  flat_map (fun a => match a with Call c _ => [c] | Log _ _ => [] end) t.

(** The completion signals of a trace: the status of each
    [cfnresponse.send], in order. *)
Definition signals (t : list action) : list status :=
  flat_map (fun a =>
    match a with
    | Call (cfnresponse_send _ st) _ => [st]
    | _ => []
    end) t.

(** The statements handed to [conn.execute], each with what came back. *)
Definition executes (t : list action) : list (string * resp) :=
  flat_map (fun a =>
    match a with
    | Call (conn_execute s) r => [(s, r)]
    | _ => []
    end) t.

(** The calls of the teardown that the code does make.
    [glue_delete_data_quality_ruleset] is a call of the Glue client, but
    not one of them. *)
Definition is_teardown_call (c : call) : bool :=
  match c with
  | glue_list_data_quality_rulesets
  | glue_delete_job _
  | glue_get_databases
  | glue_get_tables _
  | glue_delete_table _ _
  | glue_delete_database _
  | glue_delete_connection _
  | iam_delete_role_policy _ _
  | iam_delete_role _ => true
  | _ => false
  end.

(** The call that opens each step of the fixed sequence. *)
Definition is_step_call (c : call) : bool :=
  match c with
  | glue_list_data_quality_rulesets
  | glue_delete_job _
  | glue_get_databases
  | glue_delete_connection _
  | iam_delete_role_policy _ _
  | iam_delete_role _ => true
  | _ => false
  end.

Definition step_calls (t : list action) : list call :=
  filter (fun c => is_step_call c = true) (calls t).

Definition is_iam_call (c : call) : bool :=
  match c with
  | iam_delete_role_policy _ _ | iam_delete_role _ => true
  | _ => false
  end.

Definition is_send (c : call) : bool :=
  match c with cfnresponse_send _ _ => true | _ => false end.

(** Calls on the database session and for its credentials. *)
Definition is_session_call (c : call) : bool :=
  match c with
  | conn_execute _ | sts_client_assume_role _ _ => true
  | _ => false
  end.

(** Lifting a test on calls to actions: log records pass. *)
Definition on_calls (p : call -> bool) (a : action) : bool :=
  match a with Call c _ => p c | Log _ _ => true end.

Definition is_session_action (a : action) : bool :=
  match a with Call c _ => is_session_call c | Log _ _ => false end.

Definition session_actions (t : list action) : list action :=
  flat_map (fun a => if is_session_action a then [a] else []) t.

(** What [sqlparse.split] and [engine.connect()] answered. *)
Definition splits (t : list action) : list resp :=
  flat_map (fun a => match a with Call (sqlparse_split _) r => [r] | _ => [] end) t.

Definition connects (t : list action) : list resp :=
  flat_map (fun a => match a with Call engine_connect r => [r] | _ => [] end) t.

Definition is_names (r : resp) : bool :=
  match r with RNames _ => true | _ => false end.

(** A list of statements came back and a connection was opened. *)
Definition opened (t : list action) : bool :=
  existsb is_names (splits t) && existsb (fun r => negb (is_raised r)) (connects t).

(** The two calls of the identity block, and the record that follows
    each, by what the call answered. *)
Definition policy_call (cfg : config) : call :=
  iam_delete_role_policy (iam_role cfg) (iam_policy cfg).

Definition role_call (cfg : config) : call := iam_delete_role (iam_role cfg).

Definition policy_log (cfg : config) (r : resp) : logmsg :=
  match r with
  | Raised e => LCannotDeletePolicy (iam_policy cfg) (iam_role cfg) e
  | _ => LDeletedPolicy (iam_policy cfg) (iam_role cfg)
  end.

Definition role_log (cfg : config) (r : resp) : logmsg :=
  match r with
  | Raised e => LRoleNotFound (iam_role cfg) e
  | _ => LDeletedRole (iam_role cfg)
  end.

(** The exception a log record reports. *)
Definition logged_exn (msg : logmsg) : option exn :=
  match msg with
  | LEmptyBucketError _ e
  | LErrorDetails e
  | LFailedRulesets e
  | LJobNotExist _ e
  | LFailedDatabases e
  | LConnectionNotExist _ e
  | LCannotDeletePolicy _ _ e
  | LRoleNotFound _ e
  | LRoleOrPolicyNotExist e
  | LError e => Some e
  | _ => None
  end.

(** Every call that raised is followed at once by a log record that
    reports its exception. *)
Fixpoint well_logged (t : list action) : Prop :=
  match t with
  | [] => True
  | Call _ (Raised e) :: t' =>
      match t' with
      | Log _ msg :: _ => logged_exn msg = Some e
      | _ => False
      end /\ well_logged t'
  | _ :: t' => well_logged t'
  end.

(** Whether the Create branch was taken and raised: the branch runs right
    after the handler's first log record. *)
Definition provisioning_raised (w : world) (cfg : config)
    (event : gmap string string) (h : history) : bool :=
  match event !! "RequestType" with
  | Some request_type =>
      bool_decide (request_type = CREATE) &&
      is_raise (outcome (provisioning_step w cfg) (h ++ [Log WARNING (LEvent event)]))
  | None => false
  end.

(** The keys the Delete branch reads, in the order it reads them. *)
Definition delete_keys : list string :=
  ["PhysicalResourceId"; "StackId"; "RequestId"; "LogicalResourceId"; "ResponseURL"].

(** A lifecycle event carries the six keys of the orchestrator's record. *)
Definition lifecycle_event (event : gmap string string) : Prop :=
  forall k, In k ("RequestType" :: delete_keys) -> event !! k <> None.

(** The completion signals that went out: the status of each
    [cfnresponse.send] that returned, in order. *)
Definition delivered (t : list action) : list status :=
  flat_map (fun a =>
    match a with
    | Call (cfnresponse_send _ st) r => if is_raised r then [] else [st]
    | _ => []
    end) t.

(** ** Predicates on computations and traces *)

(** [sat m Q]: from every history, the actions [m] appends and its outcome
    satisfy [Q]. *)
Definition sat {A} (m : M A) (Q : list action -> result A -> Prop) : Prop :=
  forall h, Q (trace m h) (outcome m h).

(** [emits p m]: [m] appends only actions that pass [p]. *)
Definition emits {A} (p : action -> bool) (m : M A) : Prop :=
  sat m (fun t _ => Forall (fun a => p a = true) t).

(** [returns m]: [m] never raises. *)
Definition returns {A} (m : M A) : Prop :=
  sat m (fun _ r => is_raise r = false).

(** A handler's message reports the exception it is given. *)
Definition reports (msg : exn -> logmsg) : Prop :=
  forall e, logged_exn (msg e) = Some e.

(** What the body of [try: ... except Exception as e: log(msg e)] owes:
    a well-logged trace if it ends well, and one that the handler's record
    completes if it raises. *)
Definition wl_post {A} (lvl : level) (msg : exn -> logmsg)
    (t : list action) (r : result A) : Prop :=
  match r with
  | Ok _ => well_logged t
  | Raise e => well_logged (t ++ [Log lvl (msg e)])
  end.

(** [quiet P m]: [m] never raises and the actions it appends satisfy [P]. *)
Definition quiet {A} (P : list action -> Prop) (m : M A) : Prop :=
  sat m (fun t r => P t /\ is_raise r = false).

(** Calls that touch the database named ["default"] or its tables. *)
Definition touches_default (c : call) : bool :=
  match c with
  | glue_get_tables db | glue_delete_table db _ | glue_delete_database db =>
      bool_decide (db = "default")
  | _ => false
  end.

(** Before each attempt to delete a database come the enumeration of its
    tables and, for every table enumerated, an attempt to delete it; no
    other call comes in between. *)
Definition tables_before_database (t : list action) : Prop :=
  forall pre db r post,
    t = pre ++ Call (glue_delete_database db) r :: post ->
    exists pre0 tables mid,
      pre = pre0 ++ Call (glue_get_tables db) (RNames tables) :: mid /\
      calls mid = map (glue_delete_table db) tables.

(** After each enumeration of the tables of a database come an attempt to
    delete every one of them and then the attempt to delete the database. *)
Definition database_after_tables (t : list action) : Prop :=
  forall pre db tables post,
    t = pre ++ Call (glue_get_tables db) (RNames tables) :: post ->
    exists mid r post',
      post = mid ++ Call (glue_delete_database db) r :: post' /\
      calls mid = map (glue_delete_table db) tables.

(** [always P m]: the actions [m] appends satisfy [P], however it ends. *)
Definition always {A} (P : list action -> Prop) (m : M A) : Prop :=
  sat m (fun t _ => P t).

(** The calls of the walk on the tables and databases of the catalog. *)
Definition is_walk_call (c : call) : bool :=
  match c with
  | glue_get_tables _ | glue_delete_table _ _ | glue_delete_database _ => true
  | _ => false
  end.

(** Both directions of the order between a database and its tables. *)
Definition walk_ordered (t : list action) : Prop :=
  tables_before_database t /\ database_after_tables t.

(** [ran stmts t]: [t] is the statements of [stmts] executed one after
    the other, none raising. *)
Definition ran (stmts : list string) (t : list action) : Prop :=
  Forall2 (fun s a => exists r, a = Call (conn_execute s) r /\ is_raised r = false) stmts t.

Definition assume_role_call (cfg : config) : call :=
  sts_client_assume_role (IAM_ROLE_ARN cfg) "CreatePostgresSession".

(** The three ways through the [with] block (lines 186-200) once the list
    of statements is there: a statement raises; all statements pass and no
    credentials come back; credentials come back and the import is
    executed.  The flag tells whether the block ended well. *)
Inductive populate_trace (cfg : config) (stmts : list string) : list action -> bool -> Prop :=
| pt_statement k s e t0 :
    stmts !! k = Some s ->
    ran (take k stmts) t0 ->
    populate_trace cfg stmts (t0 ++ [Call (conn_execute s) (Raised e)]) false
| pt_no_credentials t0 r :
    ran stmts t0 ->
    (forall a s k, r <> RCreds a s k) ->
    populate_trace cfg stmts (t0 ++ [Call (assume_role_call cfg) r]) false
| pt_import t0 a s k r :
    ran stmts t0 ->
    populate_trace cfg stmts
      (t0 ++ [Call (assume_role_call cfg) (RCreds a s k);
              Call (conn_execute (format_load (BUCKET_NAME cfg) (BUCKET_PATH cfg) a s k)) r])
      (negb (is_raised r)).

(** The actions of [load_dataset] up to the split of a script that was
    fetched and decoded. *)
Definition load_prefix (cfg : config) (r1 r2 : resp) (sql : string) : list action :=
  [ Log INFO LSqlAlchemyVersion;
    Call (boto3_client "s3") r1;
    Call (s3_get_object (BUCKET_NAME cfg) (OBJECT_KEY cfg)) r2;
    Log INFO (LResponse r2);
    Call (body_read_decode r2) (RText sql) ].

(** A run of [load_dataset]: it stops before any statement is executed,
    or it gets a list of statements and a connection and goes through the
    [with] block. *)
Definition load_trace (cfg : config) (t : list action) (r : result unit) : Prop :=
  (session_actions t = [] /\ opened t = false /\ is_raise r = true) \/
  (exists r1 r2 sql stmts rce rcon t_pop ok rcl,
     t = load_prefix cfg r1 r2 sql ++
         [ Call (sqlparse_split sql) (RNames stmts);
           Call (sa_create_engine (engine_url cfg)) rce;
           Call engine_connect rcon ] ++
         t_pop ++ [Call conn_close rcl] /\
     is_raised rcon = false /\
     populate_trace cfg stmts t_pop ok /\
     is_raise r = negb (ok && negb (is_raised rcl))).

(** ** Concrete environments *)

(** Every call returns [None]; nothing raises. *)
Definition calm_world : world := fun _ _ => RNone.

(** The Glue catalog knows one rule set; all else as in [calm_world]. *)
Definition one_ruleset_world : world := fun _ c =>
  match c with
  | glue_list_data_quality_rulesets => RNames ["ruleset-1"]
  | _ => RNone
  end.

(** [cfnresponse.send] looks up ['ResponseURL'] in the event it is given
    and raises when it is not there; all else as in [calm_world]. *)
Definition url_reading_world : world := fun _ c =>
  match c with
  | cfnresponse_send event _ =>
      match event !! "ResponseURL" with
      | Some _ => RNone
      | None => Raised (KeyError "ResponseURL")
      end
  | _ => RNone
  end.

(** A script of five statements whose third statement the database
    rejects. *)
Definition third_fails_world : world := fun _ c =>
  match c with
  | body_read_decode _ => RText "script"
  | sqlparse_split _ => RNames ["s1"; "s2"; "s3"; "s4"; "s5"]
  | conn_execute "s3" => Raised (OtherError "syntax error")
  | sts_client_assume_role _ _ => RCreds "key" "secret" "token"
  | _ => RNone
  end.

(** An empty script, a database and credentials that work. *)
Definition empty_script_world : world := fun _ c =>
  match c with
  | body_read_decode _ => RText ""
  | sqlparse_split _ => RNames []
  | sts_client_assume_role _ _ => RCreds "key" "secret" "token"
  | _ => RNone
  end.

(** Nothing is there any more: every deletion is refused, every bucket is
    missing. *)
Definition bare_world : world := fun _ c =>
  match c with
  | glue_list_data_quality_rulesets | glue_get_databases => RNames []
  | boto3_resource _ | cfnresponse_send _ _ => RNone
  | _ => Raised (ClientError "EntityNotFoundException")
  end.

(** A script of five statements, a database and credentials that work. *)
Definition five_statements_world : world := fun _ c =>
  match c with
  | body_read_decode _ => RText "script"
  | sqlparse_split _ => RNames ["s1"; "s2"; "s3"; "s4"; "s5"]
  | sts_client_assume_role _ _ => RCreds "key" "secret" "token"
  | _ => RNone
  end.

(** The load goes through as in [five_statements_world], but no Glue job
    is there to delete. *)
Definition no_jobs_world : world := fun _ c =>
  match c with
  | glue_delete_job _ => Raised (ClientError "EntityNotFoundException")
  | body_read_decode _ => RText "script"
  | sqlparse_split _ => RNames ["s1"; "s2"; "s3"; "s4"; "s5"]
  | sts_client_assume_role _ _ => RCreds "key" "secret" "token"
  | _ => RNone
  end.

(** A Delete event as the orchestrator sends it. *)
Definition delete_event : gmap string string :=
  list_to_map
    [ ("RequestType", "Delete");
      ("PhysicalResourceId", "lab-setup");
      ("StackId", "stack-1");
      ("RequestId", "request-1");
      ("LogicalResourceId", "LabSetup");
      ("ResponseURL", "https://example.invalid/response") ].

(** A Create event as the orchestrator sends it. *)
Definition create_event : gmap string string :=
  list_to_map
    [ ("RequestType", "Create");
      ("PhysicalResourceId", "lab-setup");
      ("StackId", "stack-1");
      ("RequestId", "request-1");
      ("LogicalResourceId", "LabSetup");
      ("ResponseURL", "https://example.invalid/response") ].

(** A Delete event that lost its ['ResponseURL']. *)
Definition delete_event_without_url : gmap string string :=
  list_to_map
    [ ("RequestType", "Delete");
      ("PhysicalResourceId", "lab-setup");
      ("StackId", "stack-1");
      ("RequestId", "request-1");
      ("LogicalResourceId", "LabSetup") ].

(** A catalog whose second database cannot be listed. *)
Definition second_listing_fails_world : world := fun _ c =>
  match c with
  | glue_get_databases => RNames ["sales"; "staging"; "archive"]
  | glue_get_tables "staging" => Raised (ClientError "AccessDeniedException")
  | glue_get_tables _ => RNames []
  | _ => RNone
  end.

(** A catalog of three databases: one with three tables, one with none,
    and ["default"]. *)
Definition two_databases_world : world := fun _ c =>
  match c with
  | glue_get_databases => RNames ["sales"; "default"; "staging"]
  | glue_get_tables "sales" => RNames ["orders"; "items"; "users"]
  | glue_get_tables _ => RNames []
  | _ => RNone
  end.

(** The configuration of a process started with [DBPORT=5432] and nothing
    else set. *)
Definition default_config : config :=
  {| DBHOST := "";
     DBPORT := 5432;
     DBNAME := "postgres";
     DBUSER := "";
     DBPASSWORD := "";
     BUCKET_NAME := "";
     OBJECT_KEY := "";
     IAM_ROLE_ARN := "";
     BUCKET_PATH := "labs/cfn_dependencies/c4w4a1/csv";
     ACCOUNT_ID := "";
     PROJECT := "de-c4w4a1";
     REGION := "us-east-1" |}.

(** ** Further observations *)

(** A call that raised. *)
Definition is_raised_call (a : action) : bool :=
  match a with Call _ r => is_raised r | Log _ _ => false end.

(** [strict m]: [m] swallows nothing: when it ends well, none of its calls
    raised. *)
Definition strict {A} (m : M A) : Prop :=
  sat m (fun t r => is_raise r = false -> Forall (fun a => is_raised_call a = false) t).

(** [stops_at P t r]: an action that passes [P] is the last one of [t], and
    the computation raised. *)
Definition stops_at {A} (P : action -> Prop) (t : list action) (r : result A) : Prop :=
  forall pre a post, t = pre ++ a :: post -> P a -> post = [] /\ is_raise r = true.

(** An enumeration of tables that did not come back as a list. *)
Definition failed_get_tables (a : action) : Prop :=
  exists db r, a = Call (glue_get_tables db) r /\ is_names r = false.

(** The databases and the buckets a trace attempts to delete, in order. *)
Definition database_deletes (t : list action) : list string :=
  flat_map (fun c => match c with glue_delete_database db => [db] | _ => [] end) (calls t).

Definition bucket_deletes (t : list action) : list string :=
  flat_map (fun c => match c with s3_object_versions_delete b => [b] | _ => [] end) (calls t).

Definition is_bucket_call (c : call) : bool :=
  match c with
  | boto3_resource _ | s3_object_versions_delete _ => true
  | _ => false
  end.

(** The calls on the catalog: the enumeration of the databases and the
    calls of the walk. *)
Definition is_catalog_call (c : call) : bool :=
  match c with
  | glue_get_databases => true
  | _ => is_walk_call c
  end.

(** What [conn.close] answered, each time the [with] block was left. *)
Definition closes (t : list action) : list resp :=
  flat_map (fun a => match a with Call conn_close r => [r] | _ => [] end) t.


(** A connection was opened: [engine.connect()] returned. *)
Definition connected (t : list action) : bool :=
  existsb (fun r => negb (is_raised r)) (connects t).


(** ** Rules for computations *)

Lemma sat_weaken {A} (m : M A) (Q Q' : list action -> result A -> Prop) :
  sat m Q -> (forall t r, Q t r -> Q' t r) -> sat m Q'.
Proof. intros Hm HQ h. apply HQ, Hm. Qed.

Lemma sat_conj {A} (m : M A) (Q Q' : list action -> result A -> Prop) :
  sat m Q -> sat m Q' -> sat m (fun t r => Q t r /\ Q' t r).
Proof. intros H1 H2 h. split; [apply H1 | apply H2]. Qed.

Lemma sat_ret {A} (a : A) (Q : list action -> result A -> Prop) :
  Q [] (Ok a) -> sat (mret a) Q.
Proof. intros HQ h. exact HQ. Qed.

Lemma sat_raise {A} (e : exn) (Q : list action -> result A -> Prop) :
  Q [] (Raise e) -> sat (raise e) Q.
Proof. intros HQ h. exact HQ. Qed.

Lemma sat_log lvl msg (Q : list action -> result unit -> Prop) :
  Q [Log lvl msg] (Ok tt) -> sat (log lvl msg) Q.
Proof. intros HQ h. exact HQ. Qed.

Lemma sat_invoke w c (Q : list action -> result resp -> Prop) :
  (forall r, Q [Call c r] (match r with Raised e => Raise e | _ => Ok r end)) ->
  sat (invoke w c) Q.
Proof. intros HQ h. apply HQ. Qed.

Lemma sat_bind {A B} (m : M A) (f : A -> M B) Q1 (Q : list action -> result B -> Prop) :
  sat m Q1 ->
  (forall t1 a, Q1 t1 (Ok a) -> sat (f a) (fun t2 r => Q (t1 ++ t2) r)) ->
  (forall t1 e, Q1 t1 (Raise e) -> Q t1 (Raise e)) ->
  sat (m ≫= f) Q.
Proof.
  intros Hm Hf He h. specialize (Hm h).
  unfold trace, outcome, mbind, M_bind, bind in *.
  destruct (m h) as [t1 [a | e]]; simpl in *.
  - specialize (Hf t1 a Hm (h ++ t1)). unfold trace, outcome in Hf.
    destruct (f a (h ++ t1)) as [t2 r2]. exact Hf.
  - apply He, Hm.
Qed.

Lemma sat_try {A} (body : M A) (handler : exn -> M A) Q1
    (Q : list action -> result A -> Prop) :
  sat body Q1 ->
  (forall t1 a, Q1 t1 (Ok a) -> Q t1 (Ok a)) ->
  (forall t1 e, Q1 t1 (Raise e) -> sat (handler e) (fun t2 r => Q (t1 ++ t2) r)) ->
  sat (try_except body handler) Q.
Proof.
  intros Hm Hok He h. specialize (Hm h).
  unfold trace, outcome, try_except in *.
  destruct (body h) as [t1 [a | e]]; simpl in *.
  - apply Hok, Hm.
  - specialize (He t1 e Hm (h ++ t1)). unfold trace, outcome in He.
    destruct (handler e (h ++ t1)) as [t2 r2]. exact He.
Qed.

Lemma sat_finally {A} (body : M A) (leave : M unit) Q1 Q2
    (Q : list action -> result A -> Prop) :
  sat body Q1 ->
  sat leave Q2 ->
  (forall t1 r1 t2 r2, Q1 t1 r1 -> Q2 t2 r2 ->
     Q (t1 ++ t2) (match r2 with Raise e => Raise e | Ok _ => r1 end)) ->
  sat (finally body leave) Q.
Proof.
  intros Hb Hl HQ h. specialize (Hb h). specialize (Hl (h ++ trace body h)).
  unfold trace, outcome, finally in *.
  destruct (body h) as [t1 r1]; simpl in *.
  destruct (leave (h ++ t1)) as [t2 r2]; simpl in *.
  apply HQ; assumption.
Qed.

Create HintDb returns discriminated.

Section Emits.

Context {A B : Type} (p : action -> bool).

Lemma emits_ret (a : A) : emits p (mret a : M A).
Proof. apply sat_ret. constructor. Qed.

Lemma emits_raise (e : exn) : emits p (raise e : M A).
Proof. apply sat_raise. constructor. Qed.

Lemma emits_log lvl msg : p (Log lvl msg) = true -> emits p (log lvl msg).
Proof. intros H. apply sat_log. repeat constructor. exact H. Qed.

Lemma emits_invoke w c : (forall r, p (Call c r) = true) -> emits p (invoke w c).
Proof. intros H. apply sat_invoke. intros r. repeat constructor. apply H. Qed.

Lemma emits_bind (m : M A) (f : A -> M B) :
  emits p m -> (forall a, emits p (f a)) -> emits p (m ≫= f).
Proof.
  intros Hm Hf. eapply sat_bind; [exact Hm | | auto].
  intros t1 a Ht1. eapply sat_weaken; [apply Hf | ].
  intros t2 r2 Ht2. simpl. apply Forall_app; auto.
Qed.

Lemma emits_try (body : M A) (handler : exn -> M A) :
  emits p body -> (forall e, emits p (handler e)) -> emits p (try_except body handler).
Proof.
  intros Hm Hf. eapply sat_try; [exact Hm | auto | ].
  intros t1 e Ht1. eapply sat_weaken; [apply Hf | ].
  intros t2 r2 Ht2. simpl. apply Forall_app; auto.
Qed.

Lemma emits_finally (body : M A) (leave : M unit) :
  emits p body -> emits p leave -> emits p (finally body leave).
Proof.
  intros Hb Hl. eapply sat_finally; [exact Hb | exact Hl | ].
  intros t1 r1 t2 r2 H1 H2. simpl in *. apply Forall_app; auto.
Qed.

Lemma emits_for_each (l : list A) (body : A -> M unit) :
  (forall x, emits p (body x)) -> emits p (for_each l body).
Proof.
  intros Hb. induction l as [| x l IH]; simpl.
  - apply sat_ret. constructor.
  - eapply sat_bind; [apply (Hb x) | | auto].
    intros t1 u1 Ht1. eapply sat_weaken; [apply IH | ].
    intros t2 r2 Ht2. simpl. apply Forall_app; auto.
Qed.

Lemma emits_if (b : bool) (m1 m2 : M A) :
  emits p m1 -> emits p m2 -> emits p (if b then m1 else m2).
Proof. destruct b; auto. Qed.

Lemma emits_subscript d key : emits p (subscript d key).
Proof. unfold subscript. destruct (d !! key); [apply sat_ret | apply sat_raise]; constructor. Qed.

Lemma emits_names_of r : emits p (names_of r).
Proof. destruct r; simpl; first [apply sat_ret | apply sat_raise]; constructor. Qed.

Lemma emits_text_of r : emits p (text_of r).
Proof. destruct r; simpl; first [apply sat_ret | apply sat_raise]; constructor. Qed.

Lemma emits_creds_of r : emits p (creds_of r).
Proof. destruct r; simpl; first [apply sat_ret | apply sat_raise]; constructor. Qed.

End Emits.

Section Returns.

Context {A B : Type}.

Lemma returns_ret (a : A) : returns (mret a : M A).
Proof. apply sat_ret. reflexivity. Qed.

Lemma returns_log lvl msg : returns (log lvl msg).
Proof. apply sat_log. reflexivity. Qed.

Lemma returns_bind (m : M A) (f : A -> M B) :
  returns m -> (forall a, returns (f a)) -> returns (m ≫= f).
Proof.
  intros Hm Hf. eapply sat_bind; [exact Hm | | ].
  - intros t1 a _. apply Hf.
  - intros t1 e H. exact H.
Qed.

(** A [try] whose handler never raises never raises, whatever its body
    does. *)
Lemma returns_try (body : M A) (handler : exn -> M A) :
  (forall e, returns (handler e)) -> returns (try_except body handler).
Proof.
  intros Hh. eapply sat_try with (Q1 := fun _ _ => True).
  - intros h. exact I.
  - reflexivity.
  - intros t1 e _. apply Hh.
Qed.

Lemma returns_for_each (l : list A) (body : A -> M unit) :
  (forall x, returns (body x)) -> returns (for_each l body).
Proof.
  intros Hb. induction l as [| x l IH]; simpl.
  - apply sat_ret. reflexivity.
  - eapply sat_bind; [apply (Hb x) | | ].
    + intros t1 a _. apply IH.
    + intros t1 e H. exact H.
Qed.

Lemma returns_Ok (m : M unit) h : returns m -> outcome m h = Ok tt.
Proof. intros H. specialize (H h). simpl in H. destruct (outcome m h) as [[] | e]; [reflexivity | discriminate]. Qed.

End Returns.

#[global] Hint Resolve returns_ret returns_log returns_bind returns_try
  returns_for_each : returns.

(** Running a sequence whose first part returns. *)
Lemma run_seq {A B} (m : M A) (k : M B) h :
  returns m ->
  trace (m;; k) h = trace m h ++ trace k (h ++ trace m h) /\
  outcome (m;; k) h = outcome k (h ++ trace m h).
Proof.
  intros Hm. specialize (Hm h). unfold trace, outcome, mbind, M_bind, bind in *.
  destruct (m h) as [t1 [a | e]]; simpl in *; [ | discriminate].
  destruct (k (h ++ t1)) as [t2 r2]. auto.
Qed.

Lemma returns_try_body {A} (body : M A) (handler : exn -> M A) :
  returns body -> returns (try_except body handler).
Proof.
  intros Hb. eapply sat_try; [exact Hb | auto | ].
  intros t1 e H. discriminate.
Qed.

(** One step of a syntax-directed proof of [emits]. *)
Ltac emits_step :=
  match goal with
  | |- emits _ (mret _) => apply emits_ret
  | |- emits _ (raise _) => apply emits_raise
  | |- emits _ (log _ _) => apply emits_log; reflexivity
  | |- emits _ (invoke _ _) => apply emits_invoke; intros; try reflexivity
  | |- emits _ (subscript _ _) => apply emits_subscript
  | |- emits _ (names_of _) => apply emits_names_of
  | |- emits _ (text_of _) => apply emits_text_of
  | |- emits _ (creds_of _) => apply emits_creds_of
  | |- emits _ (_ ≫= _) => apply emits_bind; [ | intros]
  | |- emits _ (try_except _ _) => apply emits_try; [ | intros]
  | |- emits _ (finally _ _) => apply emits_finally
  | |- emits _ (for_each _ _) => apply emits_for_each; intros
  | |- emits _ (if _ then _ else _) => apply emits_if
  | |- emits _ (let '(_, _) := ?x in _) => destruct x
  end.

(** ** Projections of a trace *)

Lemma calls_app t1 t2 : calls (t1 ++ t2) = calls t1 ++ calls t2.
Proof. unfold calls. apply flat_map_app. Qed.

Lemma calls_cons c r t : calls (Call c r :: t) = c :: calls t.
Proof. reflexivity. Qed.

Lemma signals_app t1 t2 : signals (t1 ++ t2) = signals t1 ++ signals t2.
Proof. unfold signals. apply flat_map_app. Qed.

Lemma executes_app t1 t2 : executes (t1 ++ t2) = executes t1 ++ executes t2.
Proof. unfold executes. apply flat_map_app. Qed.

Lemma step_calls_app t1 t2 : step_calls (t1 ++ t2) = step_calls t1 ++ step_calls t2.
Proof. unfold step_calls. rewrite calls_app. apply filter_app. Qed.

Lemma session_actions_app t1 t2 :
  session_actions (t1 ++ t2) = session_actions t1 ++ session_actions t2.
Proof. unfold session_actions. apply flat_map_app. Qed.

Lemma splits_app t1 t2 : splits (t1 ++ t2) = splits t1 ++ splits t2.
Proof. unfold splits. apply flat_map_app. Qed.

Lemma connects_app t1 t2 : connects (t1 ++ t2) = connects t1 ++ connects t2.
Proof. unfold connects. apply flat_map_app. Qed.

(** A trace none of whose calls passes [p] has an empty projection. *)
Lemma step_calls_none t :
  Forall (fun a => on_calls (fun c => negb (is_step_call c)) a = true) t ->
  step_calls t = [].
Proof.
  induction 1 as [| a t Ha _ IH]; [reflexivity | ].
  change (a :: t) with ([a] ++ t). rewrite step_calls_app, IH, app_nil_r.
  destruct a as [c r | lvl msg]; [ | reflexivity].
  simpl in Ha. unfold step_calls. simpl.
  destruct (is_step_call c) eqn:E; [discriminate | ].
  rewrite filter_cons_False; [reflexivity | congruence].
Qed.

Lemma delivered_app t1 t2 : delivered (t1 ++ t2) = delivered t1 ++ delivered t2.
Proof. unfold delivered. apply flat_map_app. Qed.

Lemma delivered_none t :
  Forall (fun a => on_calls (fun c => negb (is_send c)) a = true) t -> delivered t = [].
Proof.
  induction 1 as [| a t Ha _ IH]; [reflexivity | ].
  change (a :: t) with ([a] ++ t). rewrite delivered_app, IH, app_nil_r.
  destruct a as [[] r | lvl msg]; try reflexivity. discriminate.
Qed.

Lemma signals_none t :
  Forall (fun a => on_calls (fun c => negb (is_send c)) a = true) t ->
  signals t = [].
Proof.
  induction 1 as [| a t Ha _ IH]; [reflexivity | ].
  change (a :: t) with ([a] ++ t). rewrite signals_app, IH, app_nil_r.
  destruct a as [[] r | lvl msg]; try reflexivity. discriminate.
Qed.

(** Passing from one test on calls to a weaker one. *)
Lemma emits_on_calls_weaken {A} (p q : call -> bool) (m : M A) :
  (forall c, p c = true -> q c = true) ->
  emits (on_calls p) m -> emits (on_calls q) m.
Proof.
  intros Hpq Hm. eapply sat_weaken; [exact Hm | ].
  intros t r Ht. simpl in *. eapply Forall_impl; [exact Ht | ].
  intros [c r' | lvl msg]; simpl; auto.
Qed.

Lemma well_logged_app t1 t2 :
  well_logged t1 -> well_logged t2 -> well_logged (t1 ++ t2).
Proof.
  intros H1 H2. induction t1 as [| a t1 IH]; [exact H2 | ].
  destruct a as [c [e | | | | ] | lvl msg]; simpl in *; auto.
  destruct H1 as [Hnext Hrest]. split; [ | auto].
  destruct t1 as [| [ | ] t1']; simpl in *; auto; contradiction.
Qed.

(** ** The teardown orchestrator *)

Section Teardown.

Variable w : world.
Variable cfg : config.

Lemma empty_bucket_returns bucket : returns (empty_bucket w bucket).
Proof. unfold empty_bucket. auto with returns. Qed.

Lemma cleanup_rulesets_returns : returns (cleanup_rulesets w).
Proof. unfold cleanup_rulesets. auto with returns. Qed.

Lemma cleanup_jobs_returns : returns (cleanup_jobs w cfg).
Proof. unfold cleanup_jobs. auto with returns. Qed.

Lemma cleanup_catalog_returns : returns (cleanup_catalog w).
Proof. unfold cleanup_catalog. auto with returns. Qed.

Lemma cleanup_connection_returns : returns (cleanup_connection w cfg).
Proof. unfold cleanup_connection. auto with returns. Qed.

Lemma cleanup_iam_returns : returns (cleanup_iam w cfg).
Proof.
  apply returns_try_body. auto with returns.
Qed.

Lemma terraform_cleanup_returns : returns (terraform_cleanup w cfg).
Proof.
  unfold terraform_cleanup.
  apply returns_bind; [apply cleanup_rulesets_returns | intros _].
  apply returns_bind; [apply cleanup_jobs_returns | intros _].
  apply returns_bind; [apply cleanup_catalog_returns | intros _].
  apply returns_bind; [apply cleanup_connection_returns | intros _].
  apply cleanup_iam_returns.
Qed.

(** The teardown makes none but its own calls. *)
Lemma terraform_cleanup_emits :
  emits (on_calls is_teardown_call) (terraform_cleanup w cfg).
Proof.
  unfold terraform_cleanup, cleanup_rulesets, cleanup_jobs, cleanup_catalog,
    cleanup_connection, cleanup_iam, try_except_ClientError, walk_database,
    delete_table, delete_database.
  repeat emits_step.
Qed.

(** *** The steps, one by one *)

(** A [try] block that opens with a step call and otherwise makes none:
    that call is all of its projection, whether the block's body ends
    well or the handler runs. *)
Lemma step_calls_block {A} c (rest : resp -> M A) (handler : exn -> M A) :
  is_step_call c = true ->
  (forall r, emits (on_calls (fun c => negb (is_step_call c))) (rest r)) ->
  (forall e, emits (on_calls (fun c => negb (is_step_call c))) (handler e)) ->
  sat (try_except (invoke w c ≫= rest) handler) (fun t _ => step_calls t = [c]).
Proof.
  intros Hc Hrest Hh.
  eapply sat_try with (Q1 := fun t _ => step_calls t = [c]).
  - eapply sat_bind with (Q1 := fun t _ => step_calls t = [c]).
    + apply sat_invoke. intros r. unfold step_calls. simpl.
      rewrite filter_cons_True by exact Hc. reflexivity.
    + intros t1 r Ht1. eapply sat_weaken; [apply (Hrest r) | ].
      intros t2 r2 Ht2. simpl in *.
      rewrite step_calls_app, Ht1, (step_calls_none t2 Ht2). reflexivity.
    + auto.
  - auto.
  - intros t1 e Ht1. eapply sat_weaken; [apply (Hh e) | ].
    intros t2 r2 Ht2. simpl in *.
    rewrite step_calls_app, Ht1, (step_calls_none t2 Ht2). reflexivity.
Qed.

Lemma cleanup_rulesets_steps :
  sat (cleanup_rulesets w) (fun t _ => step_calls t = [glue_list_data_quality_rulesets]).
Proof.
  apply step_calls_block; [reflexivity | intros; repeat emits_step ..].
Qed.

Lemma cleanup_jobs_steps :
  sat (cleanup_jobs w cfg) (fun t _ => step_calls t = map glue_delete_job (glue_jobs cfg)).
Proof.
  unfold cleanup_jobs. generalize (glue_jobs cfg) as jobs.
  induction jobs as [| job jobs IH]; simpl.
  - apply sat_ret. reflexivity.
  - eapply sat_bind with (Q1 := fun t r => step_calls t = [glue_delete_job job] /\ is_raise r = false).
    + apply sat_conj.
      * apply step_calls_block; [reflexivity | intros; repeat emits_step ..].
      * apply returns_try. auto with returns.
    + intros t1 _ [Ht1 _]. eapply sat_weaken; [apply IH | ].
      intros t2 r2 Ht2. simpl in *. rewrite step_calls_app, Ht1, Ht2. reflexivity.
    + intros t1 e [_ H]. discriminate.
Qed.

Lemma cleanup_catalog_steps :
  sat (cleanup_catalog w) (fun t _ => step_calls t = [glue_get_databases]).
Proof.
  apply step_calls_block; [reflexivity | intros; unfold walk_database, delete_table, delete_database; repeat emits_step ..].
Qed.

Lemma cleanup_connection_steps :
  sat (cleanup_connection w cfg)
      (fun t _ => step_calls t = [glue_delete_connection (connection_name cfg)]).
Proof.
  apply step_calls_block; [reflexivity | intros; repeat emits_step ..].
Qed.

(** The identity block, action by action: the policy, a log record, the
    role, a log record; each answer is the world's. *)
Lemma cleanup_iam_run h :
  let r1 := w h (policy_call cfg) in
  let h1 := h ++ [Call (policy_call cfg) r1; Log INFO (policy_log cfg r1)] in
  let r2 := w h1 (role_call cfg) in
  cleanup_iam w cfg h =
    ([Call (policy_call cfg) r1; Log INFO (policy_log cfg r1);
      Call (role_call cfg) r2; Log INFO (role_log cfg r2)], Ok tt).
Proof.
  unfold cleanup_iam, try_except_ClientError, try_except, mbind, M_bind, bind,
    invoke, log, policy_call, role_call. simpl.
  destruct (w h _) eqn:E1; simpl;
    rewrite <- ?app_assoc; simpl;
    destruct (w (h ++ _) _) eqn:E2; simpl; reflexivity.
Qed.

Lemma cleanup_iam_steps :
  sat (cleanup_iam w cfg) (fun t _ => step_calls t = [policy_call cfg; role_call cfg]).
Proof.
  intros h. unfold trace. rewrite cleanup_iam_run. reflexivity.
Qed.

(** Whatever fails, each step of the fixed sequence is opened, once and
    in order. *)
Lemma terraform_cleanup_steps :
  sat (terraform_cleanup w cfg) (fun t _ =>
    step_calls t =
      [glue_list_data_quality_rulesets] ++
      map glue_delete_job (glue_jobs cfg) ++
      [glue_get_databases; glue_delete_connection (connection_name cfg);
       policy_call cfg; role_call cfg]).
Proof.
  unfold terraform_cleanup.
  eapply sat_bind;
    [apply (sat_conj _ _ _ cleanup_rulesets_steps cleanup_rulesets_returns) | | intros ? ? [_ ?]; discriminate].
  intros t1 _ [Ht1 _].
  eapply sat_bind;
    [apply (sat_conj _ _ _ cleanup_jobs_steps cleanup_jobs_returns) | | intros ? ? [_ ?]; discriminate].
  intros t2 _ [Ht2 _].
  eapply sat_bind;
    [apply (sat_conj _ _ _ cleanup_catalog_steps cleanup_catalog_returns) | | intros ? ? [_ ?]; discriminate].
  intros t3 _ [Ht3 _].
  eapply sat_bind;
    [apply (sat_conj _ _ _ cleanup_connection_steps cleanup_connection_returns) | | intros ? ? [_ ?]; discriminate].
  intros t4 _ [Ht4 _].
  eapply sat_weaken; [apply cleanup_iam_steps | ].
  intros t5 r5 Ht5. simpl in *.
  rewrite !step_calls_app, Ht1, Ht2, Ht3, Ht4, Ht5.
  simpl. rewrite <- ?app_assoc. reflexivity.
Qed.

End Teardown.

(** ** Caught and logged *)

Section Logged.

Context {A B : Type} (lvl : level) (msg : exn -> logmsg).
Hypothesis msg_reports : reports msg.

Lemma wl_ret (a : A) : sat (mret a : M A) (wl_post lvl msg).
Proof. apply sat_ret. exact I. Qed.

Lemma wl_raise (e : exn) : sat (raise e : M A) (wl_post lvl msg).
Proof. apply sat_raise. exact I. Qed.

Lemma wl_log l m : sat (log l m) (wl_post lvl msg).
Proof. apply sat_log. exact I. Qed.

Lemma wl_invoke w c : sat (invoke w c) (wl_post lvl msg).
Proof.
  apply sat_invoke. intros [e | | | | ]; simpl; auto.
Qed.

Lemma wl_names_of r : sat (names_of r) (wl_post lvl msg).
Proof. destruct r; simpl; first [apply sat_ret | apply sat_raise]; exact I. Qed.

Lemma wl_bind (m : M A) (f : A -> M B) :
  sat m (wl_post lvl msg) -> (forall a, sat (f a) (wl_post lvl msg)) ->
  sat (m ≫= f) (wl_post lvl msg).
Proof.
  intros Hm Hf. eapply sat_bind; [exact Hm | | auto].
  intros t1 a Ht1. eapply sat_weaken; [apply (Hf a) | ].
  intros t2 [b | e] Ht2; simpl in *.
  - apply well_logged_app; assumption.
  - rewrite <- app_assoc. apply well_logged_app; assumption.
Qed.

Lemma wl_if (b : bool) (m1 m2 : M A) :
  sat m1 (wl_post lvl msg) -> sat m2 (wl_post lvl msg) ->
  sat (if b then m1 else m2) (wl_post lvl msg).
Proof. destruct b; auto. Qed.

Lemma wl_quiet (m : M A) : quiet well_logged m -> sat m (wl_post lvl msg).
Proof.
  intros Hm. eapply sat_weaken; [exact Hm | ].
  intros t [a | e] [Ht Hr]; [exact Ht | discriminate].
Qed.

(** The handler's record closes the block. *)
Lemma wl_try (body : M unit) :
  sat body (wl_post lvl msg) ->
  quiet well_logged (try_except body (fun e => log lvl (msg e))).
Proof.
  intros Hb. eapply sat_try; [exact Hb | simpl; auto | ].
  intros t1 e Ht1. apply sat_log. simpl in *. auto.
Qed.

End Logged.

Lemma wl_for_each {A} lvl msg (l : list A) (body : A -> M unit) :
  (forall x, sat (body x) (wl_post lvl msg)) ->
  sat (for_each l body) (wl_post lvl msg).
Proof.
  intros Hb. induction l as [| x l IH]; simpl.
  - apply sat_ret. exact I.
  - apply wl_bind; auto.
Qed.

Section Quiet.

Variable P : list action -> Prop.
Hypothesis P_nil : P [].
Hypothesis P_app : forall t1 t2, P t1 -> P t2 -> P (t1 ++ t2).

Lemma quiet_seq {A B} (m : M A) (f : A -> M B) :
  quiet P m -> (forall a, quiet P (f a)) -> quiet P (m ≫= f).
Proof.
  intros Hm Hf. eapply sat_bind; [exact Hm | | ].
  - intros t1 a [Ht1 _]. eapply sat_weaken; [apply (Hf a) | ].
    intros t2 r [Ht2 Hr]. auto.
  - intros t1 e [_ H]. discriminate.
Qed.

Lemma quiet_for_each {A} (l : list A) (body : A -> M unit) :
  (forall x, quiet P (body x)) -> quiet P (for_each l body).
Proof.
  intros Hb. induction l as [| x l IH]; simpl.
  - apply sat_ret. auto.
  - apply quiet_seq; auto.
Qed.

End Quiet.

Section TeardownLogged.

Variable w : world.
Variable cfg : config.

Ltac run_block :=
  intros h; unfold quiet, trace, outcome, try_except, mbind, M_bind, bind, invoke, log;
  simpl; destruct (w h _) as [e | | | | ]; simpl; auto.

Lemma delete_table_logged db tbl : quiet well_logged (delete_table w db tbl).
Proof. unfold delete_table. run_block. Qed.

Lemma delete_database_logged db : quiet well_logged (delete_database w db).
Proof. unfold delete_database. run_block. Qed.

Lemma empty_bucket_logged bucket : quiet well_logged (empty_bucket w bucket).
Proof.
  apply (wl_try WARNING (fun e => LEmptyBucketError bucket e)).
  repeat first
    [ apply wl_bind; [ | intros]
    | apply wl_invoke; intros e; reflexivity
    | apply wl_ret ].
Qed.

Lemma cleanup_rulesets_logged : quiet well_logged (cleanup_rulesets w).
Proof.
  apply (wl_try INFO LFailedRulesets).
  apply wl_bind; [apply wl_invoke; intros e; reflexivity | intros r].
  apply wl_bind; [apply wl_names_of | intros l].
  apply wl_for_each. intros x. apply wl_raise.
Qed.

Lemma cleanup_jobs_logged : quiet well_logged (cleanup_jobs w cfg).
Proof.
  apply quiet_for_each; [exact I | apply well_logged_app | ].
  intros job. apply (wl_try INFO (fun e => LJobNotExist job e)).
  apply wl_bind; [apply wl_invoke; intros e; reflexivity | intros r; apply wl_log].
Qed.

Lemma cleanup_catalog_logged : quiet well_logged (cleanup_catalog w).
Proof.
  apply (wl_try INFO LFailedDatabases).
  apply wl_bind; [apply wl_invoke; intros e; reflexivity | intros r].
  apply wl_bind; [apply wl_names_of | intros dbs].
  apply wl_for_each. intros db. apply wl_if; [apply wl_ret | ].
  unfold walk_database.
  apply wl_bind; [apply wl_invoke; intros e; reflexivity | intros r'].
  apply wl_bind; [apply wl_names_of | intros tables].
  apply wl_bind; [ | intros _]; apply wl_quiet.
  - apply quiet_for_each; [exact I | apply well_logged_app | ].
    intros tbl. apply delete_table_logged.
  - apply delete_database_logged.
Qed.

Lemma cleanup_connection_logged : quiet well_logged (cleanup_connection w cfg).
Proof.
  apply (wl_try INFO (fun e => LConnectionNotExist (connection_name cfg) e)).
  apply wl_bind; [apply wl_invoke; intros e; reflexivity | intros r; apply wl_log].
Qed.

Lemma cleanup_iam_logged : quiet well_logged (cleanup_iam w cfg).
Proof.
  intros h. unfold trace, outcome. rewrite cleanup_iam_run. simpl.
  split; [ | reflexivity].
  destruct (w h _); simpl; destruct (w _ (role_call cfg)); simpl; auto.
Qed.

Lemma terraform_cleanup_logged : quiet well_logged (terraform_cleanup w cfg).
Proof.
  unfold terraform_cleanup.
  apply quiet_seq; [apply well_logged_app | apply cleanup_rulesets_logged | intros _].
  apply quiet_seq; [apply well_logged_app | apply cleanup_jobs_logged | intros _].
  apply quiet_seq; [apply well_logged_app | apply cleanup_catalog_logged | intros _].
  apply quiet_seq; [apply well_logged_app | apply cleanup_connection_logged | intros _].
  apply cleanup_iam_logged.
Qed.

End TeardownLogged.

(** ** The catalog walk *)

Lemma app_split {X} (t1 t2 pre post : list X) (x : X) :
  t1 ++ t2 = pre ++ x :: post ->
  (exists post1, t1 = pre ++ x :: post1 /\ post = post1 ++ t2) \/
  (exists pre2, t2 = pre2 ++ x :: post /\ pre = t1 ++ pre2).
Proof.
  revert pre. induction t1 as [| a t1 IH]; intros pre H; simpl in *.
  - right. exists pre. auto.
  - destruct pre as [| b pre]; simpl in *.
    + injection H as -> <-. left. exists t1. auto.
    + injection H as -> H. destruct (IH pre H) as [[post1 [-> ->]] | [pre2 [-> ->]]].
      * left. exists post1. auto.
      * right. exists pre2. auto.
Qed.

(** Where [y] occurs once only, there is one way to split around it. *)
Lemma split_unique {X} (t1 t2 pre post : list X) (x y : X) :
  t1 ++ x :: t2 = pre ++ y :: post ->
  ~ In y t1 -> ~ In y t2 ->
  pre = t1 /\ y = x /\ post = t2.
Proof.
  intros H H1 H2. apply app_split in H as [[post1 [-> _]] | [pre2 [H ->]]].
  - exfalso. apply H1. apply in_or_app. right. left. reflexivity.
  - destruct pre2 as [| b pre2]; simpl in *.
    + injection H as -> ->. rewrite app_nil_r. auto.
    + injection H as _ ->. exfalso. apply H2. apply in_or_app. right. left. reflexivity.
Qed.

Lemma in_calls c r t : In (Call c r) t -> In c (calls t).
Proof.
  intros H. unfold calls. apply in_flat_map. exists (Call c r). split; [exact H | left; reflexivity].
Qed.

Section Always.

Variable P : list action -> Prop.
Hypothesis P_nil : P [].
Hypothesis P_app : forall t1 t2, P t1 -> P t2 -> P (t1 ++ t2).

Lemma always_ret {A} (a : A) : always P (mret a : M A).
Proof. apply sat_ret. exact P_nil. Qed.

Lemma always_bind {A B} (m : M A) (f : A -> M B) :
  always P m -> (forall a, always P (f a)) -> always P (m ≫= f).
Proof.
  intros Hm Hf. eapply sat_bind; [exact Hm | | auto].
  intros t1 a Ht1. eapply sat_weaken; [apply Hf | ].
  intros t2 r2 Ht2. simpl. auto.
Qed.

Lemma always_try {A} (body : M A) (handler : exn -> M A) :
  always P body -> (forall e, always P (handler e)) -> always P (try_except body handler).
Proof.
  intros Hm Hf. eapply sat_try; [exact Hm | auto | ].
  intros t1 e Ht1. eapply sat_weaken; [apply Hf | ].
  intros t2 r2 Ht2. simpl. auto.
Qed.

Lemma always_for_each {A} (l : list A) (body : A -> M unit) :
  (forall x, always P (body x)) -> always P (for_each l body).
Proof.
  intros Hb. induction l as [| x l IH]; simpl.
  - apply sat_ret. exact P_nil.
  - apply always_bind; auto.
Qed.

End Always.

Lemma tables_before_database_app t1 t2 :
  tables_before_database t1 -> tables_before_database t2 ->
  tables_before_database (t1 ++ t2).
Proof.
  intros H1 H2 pre db r post H.
  apply app_split in H as [[post1 [H _]] | [pre2 [H ->]]].
  - exact (H1 _ _ _ _ H).
  - destruct (H2 _ _ _ _ H) as (pre0 & tables & mid & -> & Hmid).
    exists (t1 ++ pre0), tables, mid. rewrite <- app_assoc. auto.
Qed.

Lemma database_after_tables_app t1 t2 :
  database_after_tables t1 -> database_after_tables t2 ->
  database_after_tables (t1 ++ t2).
Proof.
  intros H1 H2 pre db tables post H.
  apply app_split in H as [[post1 [H ->]] | [pre2 [H _]]].
  - destruct (H1 _ _ _ _ H) as (mid & r & post' & -> & Hmid).
    exists mid, r, (post' ++ t2). rewrite <- app_assoc. auto.
  - exact (H2 _ _ _ _ H).
Qed.

Lemma no_walk_before t :
  Forall (fun a => on_calls (fun c => negb (is_walk_call c)) a = true) t ->
  tables_before_database t.
Proof.
  intros H pre db r post ->. apply Forall_app in H as [_ H].
  apply Forall_inv in H. discriminate.
Qed.

Lemma no_walk_after t :
  Forall (fun a => on_calls (fun c => negb (is_walk_call c)) a = true) t ->
  database_after_tables t.
Proof.
  intros H pre db tables post ->. apply Forall_app in H as [_ H].
  apply Forall_inv in H. discriminate.
Qed.

Section Walk.

Variable w : world.
Variable cfg : config.

Lemma delete_table_run db tbl h :
  exists r logs,
    delete_table w db tbl h = (Call (glue_delete_table db tbl) r :: logs, Ok tt) /\
    calls logs = [].
Proof.
  unfold delete_table, try_except, mbind, M_bind, bind, invoke, log. simpl.
  destruct (w h _) as [e | | | | ] eqn:E; simpl; eauto.
Qed.

Lemma delete_database_run db h :
  exists r logs,
    delete_database w db h = (Call (glue_delete_database db) r :: logs, Ok tt) /\
    calls logs = [].
Proof.
  unfold delete_database, try_except, mbind, M_bind, bind, invoke, log. simpl.
  destruct (w h _) as [e | | | | ] eqn:E; simpl; eauto.
Qed.

(** The loop over the tables of one database attempts each of them, in the
    order of the enumeration, and always runs to its end. *)
Lemma delete_tables_run db tables h :
  exists t,
    for_each tables (fun tbl => delete_table w db tbl) h = (t, Ok tt) /\
    calls t = map (glue_delete_table db) tables.
Proof.
  revert h. induction tables as [| tbl tables IH]; intros h; simpl.
  - exists []. auto.
  - unfold mbind, M_bind, bind.
    destruct (delete_table_run db tbl h) as (r & logs & -> & Hlogs).
    destruct (IH (h ++ Call (glue_delete_table db tbl) r :: logs)) as (t & -> & Ht).
    eexists. split; [reflexivity | ].
    rewrite <- app_comm_cons, calls_cons, calls_app, Hlogs, Ht. reflexivity.
Qed.

(** One database, when its enumeration comes back: the enumeration, an
    attempt on each table, the attempt on the database. *)
Lemma walk_database_run db tables h :
  w h (glue_get_tables db) = RNames tables ->
  exists t r logs,
    walk_database w db h =
      (Call (glue_get_tables db) (RNames tables) :: t ++
       Call (glue_delete_database db) r :: logs, Ok tt) /\
    calls t = map (glue_delete_table db) tables /\
    calls logs = [].
Proof.
  intros E. unfold walk_database, mbind, M_bind, bind, invoke. rewrite E. simpl.
  destruct (delete_tables_run db tables ((h ++ [Call (glue_get_tables db) (RNames tables)]) ++ []))
    as (t & -> & Ht).
  simpl.
  destruct (delete_database_run db (((h ++ [Call (glue_get_tables db) (RNames tables)]) ++ []) ++ t))
    as (r & logs & -> & Hlogs).
  exists t, r, logs. auto.
Qed.

(** When the enumeration fails, nothing else is done for the database. *)
Lemma walk_database_stop db h :
  (forall tables, w h (glue_get_tables db) <> RNames tables) ->
  exists e, walk_database w db h = ([Call (glue_get_tables db) (w h (glue_get_tables db))], Raise e).
Proof.
  intros E. unfold walk_database, mbind, M_bind, bind, invoke.
  destruct (w h (glue_get_tables db)) as [e | | l | | ]; simpl; eauto.
  exfalso. apply (E l). reflexivity.
Qed.

Lemma not_in_tables db tables t a :
  calls t = map (glue_delete_table db) tables ->
  (forall tbl r, a <> Call (glue_delete_table db tbl) r) ->
  (forall lvl msg, a <> Log lvl msg) ->
  ~ In a t.
Proof.
  intros Ht Ha Hl Hin. destruct a as [c r | lvl msg].
  - apply in_calls in Hin. rewrite Ht in Hin. apply in_map_iff in Hin as (tbl & <- & _).
    exact (Ha tbl r eq_refl).
  - exact (Hl lvl msg eq_refl).
Qed.

Lemma not_in_logs t c r : calls t = [] -> ~ In (Call c r) t.
Proof. intros Ht Hin. apply in_calls in Hin. rewrite Ht in Hin. exact Hin. Qed.

Lemma walk_database_ordered db :
  always (fun t => tables_before_database t /\ database_after_tables t) (walk_database w db).
Proof.
  intros h. unfold trace.
  destruct (w h (glue_get_tables db)) as [e | | tables | | ] eqn:E.
  3: {
    destruct (walk_database_run db tables h E) as (t & r & logs & -> & Ht & Hlogs).
    simpl. split.
    - intros pre db' r' post H.
      change (Call (glue_get_tables db) (RNames tables) :: t ++ Call (glue_delete_database db) r :: logs)
        with ((Call (glue_get_tables db) (RNames tables) :: t) ++ Call (glue_delete_database db) r :: logs) in H.
      apply split_unique in H as (-> & Heq & ->).
      + injection Heq as -> ->. exists [], tables, t. auto.
      + intros [Hin | Hin]; [discriminate | ].
        revert Hin. eapply not_in_tables; [exact Ht | discriminate ..].
      + apply not_in_logs, Hlogs.
    - intros pre db' tables' post H.
      change (Call (glue_get_tables db) (RNames tables) :: t ++ Call (glue_delete_database db) r :: logs)
        with ([] ++ Call (glue_get_tables db) (RNames tables) :: t ++ Call (glue_delete_database db) r :: logs) in H.
      apply split_unique in H as (-> & Heq & ->).
      + injection Heq as -> ->. exists t, r, logs. auto.
      + intros [].
      + intros Hin. apply in_app_or in Hin as [Hin | [Hin | Hin]].
        * revert Hin. eapply not_in_tables; [exact Ht | discriminate ..].
        * discriminate.
        * revert Hin. apply not_in_logs, Hlogs. }
  all: destruct (walk_database_stop db h) as [e' ->]; [rewrite E; discriminate | ];
    rewrite E; simpl; split;
    intros [| a [| b pre]] ? ? ? H; simpl in H; discriminate.
Qed.

End Walk.

Lemma walk_ordered_nil : walk_ordered [].
Proof. split; intros [| a pre] ? ? ? H; discriminate. Qed.

Lemma walk_ordered_app t1 t2 :
  walk_ordered t1 -> walk_ordered t2 -> walk_ordered (t1 ++ t2).
Proof.
  intros [B1 A1] [B2 A2]. split.
  - apply tables_before_database_app; assumption.
  - apply database_after_tables_app; assumption.
Qed.

Lemma always_no_walk {A} (m : M A) :
  emits (on_calls (fun c => negb (is_walk_call c))) m -> always walk_ordered m.
Proof.
  intros Hm. eapply sat_weaken; [exact Hm | ].
  intros t r Ht. split; [apply no_walk_before | apply no_walk_after]; exact Ht.
Qed.

Section WalkOrder.

Variable w : world.
Variable cfg : config.

Lemma cleanup_catalog_ordered : always walk_ordered (cleanup_catalog w).
Proof.
  apply always_try; [apply walk_ordered_app | | ].
  - apply always_bind; [apply walk_ordered_app | | intros r].
    { apply always_no_walk. emits_step. }
    apply always_bind; [apply walk_ordered_app | | intros dbs].
    { apply always_no_walk. emits_step. }
    apply always_for_each; [apply walk_ordered_nil | apply walk_ordered_app | ].
    intros db. destruct (bool_decide _).
    + apply always_ret, walk_ordered_nil.
    + apply walk_database_ordered.
  - intros e. apply always_no_walk. emits_step.
Qed.

Lemma terraform_cleanup_ordered : always walk_ordered (terraform_cleanup w cfg).
Proof.
  unfold terraform_cleanup.
  apply always_bind; [apply walk_ordered_app | | intros _].
  { apply always_no_walk. unfold cleanup_rulesets. repeat emits_step. }
  apply always_bind; [apply walk_ordered_app | | intros _].
  { apply always_no_walk. unfold cleanup_jobs. repeat emits_step. }
  apply always_bind; [apply walk_ordered_app | | intros _].
  { apply cleanup_catalog_ordered. }
  apply always_bind; [apply walk_ordered_app | | intros _].
  { apply always_no_walk. unfold cleanup_connection. repeat emits_step. }
  apply always_no_walk. unfold cleanup_iam, try_except_ClientError. repeat emits_step.
Qed.

Lemma walk_database_spares_default db :
  db <> "default" ->
  emits (on_calls (fun c => negb (touches_default c))) (walk_database w db).
Proof.
  intros Hdb. unfold walk_database, delete_table, delete_database.
  repeat emits_step; simpl; rewrite bool_decide_eq_false_2; auto.
Qed.

Lemma terraform_cleanup_spares_default :
  emits (on_calls (fun c => negb (touches_default c))) (terraform_cleanup w cfg).
Proof.
  unfold terraform_cleanup.
  apply emits_bind; [unfold cleanup_rulesets; repeat emits_step | intros _].
  apply emits_bind; [unfold cleanup_jobs; repeat emits_step | intros _].
  apply emits_bind; [ | intros _].
  { unfold cleanup_catalog. apply emits_try; [ | intros; emits_step].
    apply emits_bind; [emits_step | intros r].
    apply emits_bind; [emits_step | intros dbs].
    apply emits_for_each. intros db.
    destruct (bool_decide ("default" = db)) eqn:E; [apply emits_ret | ].
    apply walk_database_spares_default.
    apply bool_decide_eq_false_1 in E. congruence. }
  apply emits_bind; [unfold cleanup_connection; repeat emits_step | intros _].
  unfold cleanup_iam, try_except_ClientError. repeat emits_step.
Qed.

(** The trace of the teardown is the traces of its four first steps, then
    the identity block. *)
Lemma terraform_cleanup_tail h :
  exists pre,
    trace (terraform_cleanup w cfg) h = pre ++ trace (cleanup_iam w cfg) (h ++ pre) /\
    Forall (fun a => on_calls (fun c => negb (is_iam_call c)) a = true) pre.
Proof.
  unfold terraform_cleanup.
  assert (E1 : emits (on_calls (fun c => negb (is_iam_call c))) (cleanup_rulesets w))
    by (unfold cleanup_rulesets; repeat emits_step).
  assert (E2 : emits (on_calls (fun c => negb (is_iam_call c))) (cleanup_jobs w cfg))
    by (unfold cleanup_jobs; repeat emits_step).
  assert (E3 : emits (on_calls (fun c => negb (is_iam_call c))) (cleanup_catalog w))
    by (unfold cleanup_catalog, walk_database, delete_table, delete_database; repeat emits_step).
  assert (E4 : emits (on_calls (fun c => negb (is_iam_call c))) (cleanup_connection w cfg))
    by (unfold cleanup_connection; repeat emits_step).
  destruct (run_seq (cleanup_rulesets w)
    (cleanup_jobs w cfg;; cleanup_catalog w;; cleanup_connection w cfg;; cleanup_iam w cfg) h
    (cleanup_rulesets_returns w)) as [-> _].
  set (t1 := trace (cleanup_rulesets w) h). specialize (E1 h). fold t1 in E1.
  destruct (run_seq (cleanup_jobs w cfg)
    (cleanup_catalog w;; cleanup_connection w cfg;; cleanup_iam w cfg) (h ++ t1)
    (cleanup_jobs_returns w cfg)) as [-> _].
  set (t2 := trace (cleanup_jobs w cfg) (h ++ t1)). specialize (E2 (h ++ t1)). fold t2 in E2.
  destruct (run_seq (cleanup_catalog w)
    (cleanup_connection w cfg;; cleanup_iam w cfg) ((h ++ t1) ++ t2)
    (cleanup_catalog_returns w)) as [-> _].
  set (t3 := trace (cleanup_catalog w) ((h ++ t1) ++ t2)).
  specialize (E3 ((h ++ t1) ++ t2)). fold t3 in E3.
  destruct (run_seq (cleanup_connection w cfg) (cleanup_iam w cfg) (((h ++ t1) ++ t2) ++ t3)
    (cleanup_connection_returns w cfg)) as [-> _].
  set (t4 := trace (cleanup_connection w cfg) (((h ++ t1) ++ t2) ++ t3)).
  specialize (E4 (((h ++ t1) ++ t2) ++ t3)). fold t4 in E4.
  exists (t1 ++ t2 ++ t3 ++ t4). split.
  - rewrite <- !app_assoc. reflexivity.
  - simpl in *. repeat apply Forall_app_2; assumption.
Qed.

End WalkOrder.

(** ** The Create branch *)

Section Provisioning.

Variable w : world.
Variable cfg : config.

Lemma execute_run s h :
  execute w s h =
    ([Call (conn_execute s) (w h (conn_execute s))],
     match w h (conn_execute s) with Raised e => Raise e | _ => Ok tt end).
Proof.
  unfold execute, mbind, M_bind, bind, invoke.
  destruct (w h (conn_execute s)); reflexivity.
Qed.

Lemma execute_loop_run stmts h :
  exists t r,
    for_each stmts (execute w) h = (t, r) /\
    ((r = Ok tt /\ ran stmts t) \/
     (exists k s e t0,
        stmts !! k = Some s /\ ran (take k stmts) t0 /\
        t = t0 ++ [Call (conn_execute s) (Raised e)] /\ r = Raise e)).
Proof.
  revert h. induction stmts as [| s stmts IH]; intros h; simpl.
  - exists [], (Ok tt). split; [reflexivity | left]. split; [reflexivity | constructor].
  - unfold mbind, M_bind, bind. rewrite execute_run.
    destruct (w h (conn_execute s)) as [e | | l | x | a b c] eqn:E.
    { exists [Call (conn_execute s) (Raised e)], (Raise e). split; [reflexivity | right].
      exists 0, s, e, []. repeat split; constructor. }
    all: simpl;
      match goal with
      | |- context [for_each _ (execute w) ?h'] =>
          destruct (IH h') as (t & r & -> & [[-> Hran] | (k & s' & e & t0 & Hk & Hran & -> & ->)])
      end.
    all: eexists _, _; split; [reflexivity | ].
    all: first
      [ left; split; [reflexivity | ]; constructor; [eexists; split; [reflexivity | reflexivity] | exact Hran]
      | right; exists (S k), s', e; eexists (_ :: t0); repeat split;
        [exact Hk | simpl; constructor; [eexists; split; [reflexivity | reflexivity] | exact Hran]] ].
Qed.

Lemma populate_run stmts h :
  exists t r ok,
    populate w cfg (RNames stmts) h = (t, r) /\
    populate_trace cfg stmts t ok /\
    is_raise r = negb ok.
Proof.
  unfold populate. simpl. unfold mbind, M_bind, bind at 1. simpl.
  unfold bind at 1.
  destruct (execute_loop_run stmts (h ++ []))
    as (t & r & -> & [[-> Hran] | (k & s & e & t0 & Hk & Hran & -> & ->)]).
  2: { eexists _, _, false. split; [reflexivity | ]. split; [ | reflexivity].
       econstructor; eassumption. }
  unfold sts_assume_role, bind, mbind, M_bind, bind, invoke. simpl.
  fold (assume_role_call cfg).
  destruct (w _ (assume_role_call cfg)) as [e | | l | x | a b c] eqn:E; simpl.
  5: { rewrite execute_run.
       destruct (w _ (conn_execute _)) as [e | | l | x | a' b' c'] eqn:E'; simpl.
       all: eexists _, _, _; split; [reflexivity | ].
       all: split; [apply (pt_import cfg stmts t a b c _ Hran) | reflexivity]. }
  all: eexists _, _, false; split; [reflexivity | ].
  all: split; [apply pt_no_credentials; [exact Hran | discriminate] | reflexivity].
Qed.

Lemma populate_ill split h :
  (forall l, split <> RNames l) -> populate w cfg split h = ([], Raise TypeError).
Proof.
  intros H. destruct split as [e | | l | x | a b c]; try reflexivity.
  exfalso. exact (H l eq_refl).
Qed.

End Provisioning.

(** Rules for what comes first in a sequence. *)
Lemma sat_invoke_bind {B} w c (f : resp -> M B) (Q : list action -> result B -> Prop) :
  (forall e, Q [Call c (Raised e)] (Raise e)) ->
  (forall r, is_raised r = false -> sat (f r) (fun t2 r2 => Q (Call c r :: t2) r2)) ->
  sat (invoke w c ≫= f) Q.
Proof.
  intros He Hf.
  eapply sat_bind with
    (Q1 := fun t r' => exists r, t = [Call c r] /\
             r' = match r with Raised e => Raise e | _ => Ok r end).
  - apply sat_invoke. intros r. exists r. auto.
  - intros t1 a (r & -> & Hr).
    assert (H : a = r /\ is_raised r = false)
      by (destruct r; try discriminate; injection Hr as ->; auto).
    destruct H as [-> H]. apply Hf, H.
  - intros t1 e (r & -> & Hr). destruct r; try discriminate.
    injection Hr as <-. apply He.
Qed.

Lemma sat_log_bind {B} lvl msg (f : unit -> M B) (Q : list action -> result B -> Prop) :
  sat (f tt) (fun t2 r2 => Q (Log lvl msg :: t2) r2) ->
  sat (log lvl msg ≫= f) Q.
Proof.
  intros Hf.
  eapply sat_bind with (Q1 := fun t r => t = [Log lvl msg] /\ r = Ok tt).
  - apply sat_log. auto.
  - intros t1 [] [-> _]. exact Hf.
  - intros t1 e [_ H]. discriminate.
Qed.

Lemma sat_ret_bind {A B} (a : A) (f : A -> M B) (Q : list action -> result B -> Prop) :
  sat (f a) Q -> sat (mret a ≫= f) Q.
Proof.
  intros Hf.
  eapply sat_bind with (Q1 := fun t r => t = [] /\ r = Ok a).
  - apply sat_ret. auto.
  - intros t1 a' [-> [= <-]]. exact Hf.
  - intros t1 e [_ H]. discriminate.
Qed.

Lemma sat_raise_bind {A B} e (f : A -> M B) (Q : list action -> result B -> Prop) :
  Q [] (Raise e) -> sat (raise e ≫= f) Q.
Proof. intros HQ h. exact HQ. Qed.

Lemma executes_session t : executes (session_actions t) = executes t.
Proof.
  induction t as [| a t IH]; [reflexivity | ].
  change (a :: t) with ([a] ++ t).
  rewrite session_actions_app, !executes_app, IH. f_equal.
  destruct a as [[] r | lvl msg]; reflexivity.
Qed.

Lemma ran_session stmts t : ran stmts t -> session_actions t = t /\ splits t = [] /\ connects t = [].
Proof.
  induction 1 as [| s a stmts t (r & -> & Hr) _ (IH1 & IH2 & IH3)]; [auto | ].
  simpl. rewrite IH1. auto.
Qed.

Lemma populate_trace_session cfg stmts t ok :
  populate_trace cfg stmts t ok -> session_actions t = t /\ splits t = [] /\ connects t = [].
Proof.
  intros [k s e t0 _ Hran | t0 r Hran _ | t0 a s k r Hran];
    apply ran_session in Hran as (H1 & H2 & H3);
    rewrite session_actions_app, splits_app, connects_app, H1, H2, H3; auto.
Qed.

Lemma load_dataset_run w cfg : sat (load_dataset w cfg) (load_trace cfg).
Proof.
  unfold load_dataset.
  apply sat_log_bind.
  apply sat_invoke_bind; [intros e; left; auto | intros r1 H1].
  apply sat_invoke_bind; [intros e; left; auto | intros r2 H2].
  apply sat_log_bind.
  apply sat_invoke_bind; [intros e; left; auto | intros rb Hb].
  destruct rb as [e | | l | sql | a b c]; simpl;
    try (apply sat_raise_bind; left; auto).
  apply sat_ret_bind.
  apply sat_invoke_bind; [intros e; left; auto | intros rs Hs].
  apply sat_invoke_bind; [intros e; left; destruct rs; auto | intros rce Hce].
  apply sat_invoke_bind; [intros e; left; destruct rs; auto | intros rcon Hcon].
  eapply sat_finally with
    (Q1 := fun t r =>
             match rs with
             | RNames stmts => exists ok, populate_trace cfg stmts t ok /\ is_raise r = negb ok
             | _ => t = [] /\ is_raise r = true
             end)
    (Q2 := fun t r => exists rcl, t = [Call conn_close rcl] /\ is_raise r = is_raised rcl).
  - intros h. unfold trace, outcome.
    destruct rs as [e | | stmts | x | a b c];
      try (rewrite populate_ill by discriminate; auto).
    destruct (populate_run w cfg stmts h) as (t & r & ok & -> & Hpt & Hr). eauto.
  - apply sat_invoke_bind.
    + intros e. exists (Raised e). auto.
    + intros r Hr. apply sat_ret. exists r. rewrite Hr. auto.
  - intros t1 r1' t2 r2' H1' (rcl & -> & Hcl).
    destruct rs as [e | | stmts | x | a b c]; try discriminate.
    2: { destruct H1' as (ok & Hpt & Hok). right.
         exists r1, r2, sql, stmts, rce, rcon, t1, ok, rcl.
         repeat split; auto.
         destruct r2' as [[] | e]; simpl in *; rewrite <- Hcl.
         - rewrite Hok. destruct ok; reflexivity.
         - destruct ok; reflexivity. }
    all: destruct H1' as [-> Hr1]; left; destruct rcon; try discriminate;
      repeat split; try reflexivity;
      destruct r2'; simpl in *; auto.
Qed.

(** ** The handler *)

Lemma teardown_projections t :
  Forall (fun a => on_calls is_teardown_call a = true) t ->
  session_actions t = [] /\ splits t = [] /\ connects t = [] /\ signals t = [].
Proof.
  induction 1 as [| a t Ha _ (IH1 & IH2 & IH3 & IH4)]; [auto | ].
  change (a :: t) with ([a] ++ t).
  rewrite session_actions_app, splits_app, connects_app, signals_app, IH1, IH2, IH3, IH4.
  destruct a as [[] r | lvl msg]; try discriminate; auto.
Qed.

Section Handler.

Variable w : world.
Variable cfg : config.

(** The dispatch, branch by branch. *)
Lemma dispatch_run event h :
  dispatch w cfg event h =
    match event !! "RequestType" with
    | None => ([], Raise (KeyError "RequestType"))
    | Some request_type =>
        if bool_decide (request_type = CREATE) then provisioning_step w cfg h
        else if bool_decide (request_type = DELETE) then delete_step w cfg event h
        else ([], Ok tt)
    end.
Proof.
  unfold dispatch, subscript, mbind, M_bind, bind.
  destruct (event !! "RequestType") as [rt | ] eqn:E; [ | reflexivity].
  simpl. destruct (bool_decide (rt = CREATE)) eqn:EC.
  - apply bool_decide_eq_true_1 in EC. subst rt.
    destruct (provisioning_step w cfg (h ++ [])) as [t [[] | e]] eqn:EP;
      rewrite app_nil_r in EP; rewrite EP; [ | reflexivity].
    simpl. rewrite app_nil_r. reflexivity.
  - simpl. destruct (bool_decide (rt = DELETE)) eqn:ED; simpl.
    + rewrite !app_nil_r. destruct (delete_step w cfg event h) as [t r]. reflexivity.
    + reflexivity.
Qed.

Lemma empty_buckets_run h :
  outcome (for_each (s3_buckets cfg) (empty_bucket w)) h = Ok tt.
Proof.
  apply returns_Ok. apply returns_for_each. apply empty_bucket_returns.
Qed.

(** The Delete branch: the buckets, then the five lookups; the first key
    that is missing ends the branch with its [KeyError]. *)
Lemma delete_step_run event h :
  let tb := trace (for_each (s3_buckets cfg) (empty_bucket w)) h in
  (exists msg,
     delete_step w cfg event h = (tb ++ [Log INFO msg], Ok tt) /\
     forall k, In k delete_keys -> event !! k <> None) \/
  (exists k,
     delete_step w cfg event h = (tb, Raise (KeyError k)) /\
     In k delete_keys /\ event !! k = None).
Proof.
  intros tb. subst tb. unfold delete_step, trace.
  pose proof (empty_buckets_run h) as Hb. unfold outcome in Hb.
  revert Hb. generalize (for_each (s3_buckets cfg) (empty_bucket w)). intros m Hb.
  unfold subscript, mbind, M_bind, bind, delete_keys.
  destruct (m h) as [tb rb]. simpl in Hb. subst rb.
  destruct (event !! "PhysicalResourceId") eqn:E1; simpl;
    [ | right; eexists; rewrite ?app_nil_r; split; [reflexivity | simpl; auto]].
  destruct (event !! "StackId") eqn:E2; simpl;
    [ | right; eexists; rewrite ?app_nil_r; split; [reflexivity | simpl; auto]].
  destruct (event !! "RequestId") eqn:E3; simpl;
    [ | right; eexists; rewrite ?app_nil_r; split; [reflexivity | simpl; auto]].
  destruct (event !! "LogicalResourceId") eqn:E4; simpl;
    [ | right; eexists; rewrite ?app_nil_r; split; [reflexivity | simpl; auto 6]].
  destruct (event !! "ResponseURL") eqn:E5; simpl;
    [ | right; eexists; rewrite ?app_nil_r; split; [reflexivity | simpl; auto 7]].
  left. eexists. split; [reflexivity | ].
  intros k [<- | [<- | [<- | [<- | [<- | []]]]]]; congruence.
Qed.

(** The handler around the dispatch: what is reported, and how often.
    [hF] is the history at the second report. *)
Lemma lambda_handler_run event h :
  let h1 := h ++ [Log WARNING (LEvent event)] in
  let td := trace (dispatch w cfg event) h1 in
  match outcome (dispatch w cfg event) h1 with
  | Raise e =>
      exists hF,
        lambda_handler w cfg event h =
          (Log WARNING (LEvent event) :: td ++
           [Log ERROR (LError e);
            Call (cfnresponse_send event FAILED) (w hF (cfnresponse_send event FAILED))],
           match w hF (cfnresponse_send event FAILED) with
           | Raised e' => Raise e'
           | _ => Ok tt
           end)
  | Ok _ =>
      match w (h1 ++ td) (cfnresponse_send event SUCCESS) with
      | Raised e =>
          exists hF,
            lambda_handler w cfg event h =
              (Log WARNING (LEvent event) :: td ++
               [Call (cfnresponse_send event SUCCESS) (Raised e);
                Log ERROR (LError e);
                Call (cfnresponse_send event FAILED) (w hF (cfnresponse_send event FAILED))],
               match w hF (cfnresponse_send event FAILED) with
               | Raised e' => Raise e'
               | _ => Ok tt
               end)
      | rS =>
          lambda_handler w cfg event h =
            (Log WARNING (LEvent event) :: td ++ [Call (cfnresponse_send event SUCCESS) rS],
             Ok tt)
      end
  end.
Proof.
  unfold lambda_handler, try_except, mbind, M_bind, bind, log, invoke, trace, outcome.
  simpl.
  destruct (dispatch w cfg event (h ++ [Log WARNING (LEvent event)])) as [td [[] | e]]; simpl.
  - destruct (w _ (cfnresponse_send event SUCCESS)) as [e | | | | ] eqn:ES; simpl;
      rewrite ?app_nil_r; try reflexivity.
    match goal with
    | |- context [w ?hF (cfnresponse_send event FAILED)] => exists hF
    end.
    destruct (w _ (cfnresponse_send event FAILED)) eqn:EF; simpl;
      rewrite <- ?app_assoc; reflexivity.
  - match goal with
    | |- context [w ?hF (cfnresponse_send event FAILED)] => exists hF
    end.
    destruct (w _ (cfnresponse_send event FAILED)) eqn:EF; simpl; reflexivity.
Qed.

(** The dispatch itself reports nothing. *)
Lemma dispatch_silent event :
  emits (on_calls (fun c => negb (is_send c))) (dispatch w cfg event).
Proof.
  unfold dispatch, provisioning_step, load_dataset, populate, sts_assume_role, execute,
    delete_step, empty_bucket.
  repeat emits_step.
  all: try (eapply emits_on_calls_weaken; [ | apply terraform_cleanup_emits];
            intros []; simpl; congruence).
Qed.

(** How many signals, and which. *)
Lemma lambda_handler_signals event h :
  let h1 := h ++ [Log WARNING (LEvent event)] in
  let td := trace (dispatch w cfg event) h1 in
  signals (trace (lambda_handler w cfg event) h) =
    match outcome (dispatch w cfg event) h1 with
    | Raise _ => [FAILED]
    | Ok _ =>
        if is_raised (w (h1 ++ td) (cfnresponse_send event SUCCESS))
        then [SUCCESS; FAILED] else [SUCCESS]
    end.
Proof.
  intros h1 td. pose proof (lambda_handler_run event h) as H. cbv zeta in H.
  fold h1 in H. fold td in H.
  pose proof (dispatch_silent event h1) as Hs. fold td in Hs. simpl in Hs.
  apply signals_none in Hs.
  unfold trace at 1. revert H.
  destruct (outcome (dispatch w cfg event) h1) as [[] | e];
    [destruct (w (h1 ++ td) (cfnresponse_send event SUCCESS)) eqn:ES | ];
    intros H;
    match type of H with ex _ => destruct H as [rF H] | _ => idtac end; rewrite H; simpl;
    change (Log WARNING (LEvent event) :: td ++ ?l) with ([Log WARNING (LEvent event)] ++ td ++ l);
    rewrite !signals_app, Hs; reflexivity.
Qed.

(** When the dispatch raises: a key of the event is missing where it is
    read, or the Create branch raised. *)
Lemma dispatch_raises event h :
  is_raise (outcome (dispatch w cfg event) (h ++ [Log WARNING (LEvent event)])) = true <->
  event !! "RequestType" = None \/
  provisioning_raised w cfg event h = true \/
  (event !! "RequestType" = Some DELETE /\
   exists k, In k delete_keys /\ event !! k = None).
Proof.
  unfold outcome, provisioning_raised. rewrite dispatch_run.
  destruct (event !! "RequestType") as [rt | ] eqn:E; [ | simpl; tauto].
  destruct (bool_decide (rt = CREATE)) eqn:EC; simpl.
  - apply bool_decide_eq_true_1 in EC. subst rt. unfold outcome. split; [auto | ].
    intros [H | [H | [H _]]]; [discriminate | exact H | discriminate].
  - apply bool_decide_eq_false_1 in EC.
    destruct (bool_decide (rt = DELETE)) eqn:ED.
    + apply bool_decide_eq_true_1 in ED. subst rt.
      destruct (delete_step_run event (h ++ [Log WARNING (LEvent event)]))
        as [(msg & -> & Hk) | (k & -> & Hin & Hnone)]; simpl.
      * split; [discriminate | ].
        intros [H | [H | (_ & k & Hin & Hnone)]]; try discriminate.
        exfalso. exact (Hk k Hin Hnone).
      * split; [ | reflexivity]. intros _. right. right.
        split; [reflexivity | ]. exists k. split; [exact Hin | exact Hnone].
    + apply bool_decide_eq_false_1 in ED. simpl. split; [discriminate | ].
      intros [H | [H | [H _]]]; try discriminate. congruence.
Qed.

(** When the reports return: the handler returns, and the one signal it
    sends goes out. *)
Lemma lambda_handler_delivers event h :
  (forall h' st, is_raised (w h' (cfnresponse_send event st)) = false) ->
  let t := trace (lambda_handler w cfg event) h in
  outcome (lambda_handler w cfg event) h = Ok tt /\
  delivered t = signals t /\
  signals t =
    (if is_raise (outcome (dispatch w cfg event) (h ++ [Log WARNING (LEvent event)]))
     then [FAILED] else [SUCCESS]).
Proof.
  intros Hsend t. subst t.
  set (h1 := h ++ [Log WARNING (LEvent event)]).
  set (td := trace (dispatch w cfg event) h1).
  pose proof (lambda_handler_run event h) as H. cbv zeta in H. fold h1 td in H.
  pose proof (dispatch_silent event h1) as Hs. fold td in Hs. simpl in Hs.
  pose proof (signals_none td Hs) as Hsig.
  pose proof (delivered_none td Hs) as Hdel.
  unfold trace at 1 2 3, outcome at 1. revert H.
  destruct (outcome (dispatch w cfg event) h1) as [[] | e];
    [pose proof (Hsend (h1 ++ td) SUCCESS) as HS;
     destruct (w (h1 ++ td) (cfnresponse_send event SUCCESS)) eqn:ES; try discriminate HS | ];
    intros H;
    match type of H with
    | ex _ => destruct H as [hF H]; pose proof (Hsend hF FAILED) as HF
    | _ => idtac
    end;
    rewrite H; simpl;
    change (Log WARNING (LEvent event) :: td ++ ?l) with ([Log WARNING (LEvent event)] ++ td ++ l);
    rewrite !signals_app, !delivered_app, Hsig, Hdel; simpl;
    try (destruct (w hF (cfnresponse_send event FAILED)); try discriminate HF);
    auto.
Qed.

End Handler.

(** ** A Create event, end to end *)

Lemma in_splits sql r t : In (Call (sqlparse_split sql) r) t -> In r (splits t).
Proof.
  intros H. unfold splits. apply in_flat_map.
  exists (Call (sqlparse_split sql) r). split; [exact H | left; reflexivity].
Qed.

Lemma in_connects r t : In (Call engine_connect r) t -> In r (connects t).
Proof.
  intros H. unfold connects. apply in_flat_map.
  exists (Call engine_connect r). split; [exact H | left; reflexivity].
Qed.

Lemma in_session_actions a t :
  In a t -> is_session_action a = true -> In a (session_actions t).
Proof.
  intros H Ha. unfold session_actions. apply in_flat_map.
  exists a. split; [exact H | ]. rewrite Ha. left. reflexivity.
Qed.

Lemma ran_executes stmts t :
  ran stmts t ->
  map fst (executes t) = stmts /\
  Forall (fun x => is_raised x.2 = false) (executes t) /\
  Forall (fun a => exists s r, a = Call (conn_execute s) r) t.
Proof.
  induction 1 as [| s a stmts t (r & -> & Hr) _ (IH1 & IH2 & IH3)].
  - repeat split; constructor.
  - simpl. rewrite IH1. repeat split; constructor; eauto.
Qed.

Section Create.

Variable w : world.
Variable cfg : config.

Lemma provisioning_step_run h :
  let tc := trace (terraform_cleanup w cfg) h in
  trace (provisioning_step w cfg) h = tc ++ trace (load_dataset w cfg) (h ++ tc) /\
  outcome (provisioning_step w cfg) h = outcome (load_dataset w cfg) (h ++ tc).
Proof. apply run_seq, terraform_cleanup_returns. Qed.

(** The trace of the handler on a Create event: the first log record, the
    teardown, the load, the report. *)
Lemma create_run event h :
  event !! "RequestType" = Some CREATE ->
  exists tc tl rl tail,
    trace (lambda_handler w cfg event) h = Log WARNING (LEvent event) :: tc ++ tl ++ tail /\
    Forall (fun a => on_calls is_teardown_call a = true) tc /\
    load_trace cfg tl rl /\
    outcome (provisioning_step w cfg) (h ++ [Log WARNING (LEvent event)]) = rl /\
    outcome (dispatch w cfg event) (h ++ [Log WARNING (LEvent event)]) = rl /\
    session_actions tail = [] /\ splits tail = [] /\ connects tail = [].
Proof.
  intros E. set (h1 := h ++ [Log WARNING (LEvent event)]).
  pose proof (lambda_handler_run w cfg event h) as H. cbv zeta in H. fold h1 in H.
  assert (Hd : dispatch w cfg event h1 = provisioning_step w cfg h1).
  { rewrite dispatch_run, E. reflexivity. }
  destruct (provisioning_step_run h1) as [Ht Ho]. cbv zeta in Ht, Ho.
  set (tc := trace (terraform_cleanup w cfg) h1) in *.
  set (tl := trace (load_dataset w cfg) (h1 ++ tc)) in *.
  set (rl := outcome (load_dataset w cfg) (h1 ++ tc)) in *.
  assert (Htd : trace (dispatch w cfg event) h1 = tc ++ tl)
    by (unfold trace at 1; rewrite Hd; exact Ht).
  assert (Hod : outcome (dispatch w cfg event) h1 = rl)
    by (unfold outcome at 1; rewrite Hd; exact Ho).
  rewrite Htd, Hod in H.
  pose proof (terraform_cleanup_emits w cfg h1) as Hc. fold tc in Hc. simpl in Hc.
  pose proof (load_dataset_run w cfg (h1 ++ tc)) as Hl. fold tl rl in Hl.
  clearbody rl tl tc.
  assert (Hshape : exists tail,
            trace (lambda_handler w cfg event) h = Log WARNING (LEvent event) :: tc ++ tl ++ tail /\
            session_actions tail = [] /\ splits tail = [] /\ connects tail = []).
  { unfold trace at 1. revert H.
    destruct rl as [[] | e];
      [destruct (w _ (cfnresponse_send event SUCCESS)) eqn:ES | ]; intros H;
      match type of H with ex _ => destruct H as [rF H] | _ => idtac end;
      rewrite H; simpl; rewrite <- ?app_assoc; eexists; (split; [reflexivity | auto]). }
  destruct Hshape as (tail & Hshape & Htail).
  exists tc, tl, rl, tail. auto 8.
Qed.

End Create.

Section CreateSummary.

Variable w : world.
Variable cfg : config.

Lemma teardown_executes t :
  session_actions t = [] -> executes t = [].
Proof. intros H. rewrite <- executes_session, H. reflexivity. Qed.

(** What a Create event leaves in the trace of the handler: no statement
    and no request for credentials, with the branch raising; or the three
    ways through the [with] block. *)
Lemma create_summary event h :
  event !! "RequestType" = Some CREATE ->
  let t := trace (lambda_handler w cfg event) h in
  (session_actions t = [] /\ opened t = false /\
   provisioning_raised w cfg event h = true) \/
  (exists stmts ok,
     splits t = [RNames stmts] /\
     populate_trace cfg stmts (session_actions t) ok /\
     (ok = false -> provisioning_raised w cfg event h = true) /\
     (provisioning_raised w cfg event h = false -> ok = true)).
Proof.
  intros E t.
  destruct (create_run w cfg event h E)
    as (tc & tl & rl & tail & Ht & Hc & Hl & Hrl & _ & Hs & Hsp & Hco).
  fold t in Ht.
  destruct (teardown_projections tc Hc) as (Hc1 & Hc2 & Hc3 & _).
  assert (P1 : session_actions t = session_actions tl).
  { rewrite Ht. change (Log WARNING (LEvent event) :: tc ++ tl ++ tail)
      with ([Log WARNING (LEvent event)] ++ tc ++ tl ++ tail).
    rewrite !session_actions_app, Hc1, Hs, app_nil_r. reflexivity. }
  assert (P2 : splits t = splits tl).
  { rewrite Ht. change (Log WARNING (LEvent event) :: tc ++ tl ++ tail)
      with ([Log WARNING (LEvent event)] ++ tc ++ tl ++ tail).
    rewrite !splits_app, Hc2, Hsp, app_nil_r. reflexivity. }
  assert (P3 : connects t = connects tl).
  { rewrite Ht. change (Log WARNING (LEvent event) :: tc ++ tl ++ tail)
      with ([Log WARNING (LEvent event)] ++ tc ++ tl ++ tail).
    rewrite !connects_app, Hc3, Hco, app_nil_r. reflexivity. }
  assert (Hp : provisioning_raised w cfg event h = is_raise rl).
  { unfold provisioning_raised. rewrite E, Hrl. reflexivity. }
  destruct Hl as [(Hl1 & Hl2 & Hl3) |
                  (r1 & r2 & sql & stmts & rce & rcon & t_pop & ok & rcl & -> & Hcon & Hpt & Hr)].
  - left. unfold opened in *. rewrite P1, P2, P3, Hp. auto.
  - right. exists stmts, ok.
    destruct (populate_trace_session cfg stmts t_pop ok Hpt) as (Q1 & Q2 & Q3).
    rewrite P1, P2, Hp, Hr.
    rewrite !session_actions_app, !splits_app, Q1, Q2. simpl.
    rewrite app_nil_r.
    split; [reflexivity | ]. split; [exact Hpt | ].
    split; [intros ->; reflexivity | ].
    destruct ok; [reflexivity | discriminate].
Qed.

Lemma create_signals event h :
  event !! "RequestType" = Some CREATE ->
  let t := trace (lambda_handler w cfg event) h in
  (provisioning_raised w cfg event h = true -> signals t = [FAILED]) /\
  (provisioning_raised w cfg event h = false ->
   exists hS,
     signals t =
       if is_raised (w hS (cfnresponse_send event SUCCESS))
       then [SUCCESS; FAILED] else [SUCCESS]).
Proof.
  intros E t. subst t.
  rewrite lambda_handler_signals.
  assert (Hp : provisioning_raised w cfg event h =
               is_raise (outcome (dispatch w cfg event) (h ++ [Log WARNING (LEvent event)]))).
  { unfold provisioning_raised, outcome. rewrite dispatch_run, E. reflexivity. }
  rewrite Hp.
  destruct (outcome (dispatch w cfg event) _) as [[] | e]; simpl.
  - split; [discriminate | ]. intros _. eexists. reflexivity.
  - split; [reflexivity | discriminate].
Qed.

Lemma opened_intro sql l rc t :
  In (Call (sqlparse_split sql) (RNames l)) t ->
  In (Call engine_connect rc) t ->
  is_raised rc = false ->
  opened t = true.
Proof.
  intros Hs Hc Hrc. unfold opened. apply andb_true_intro. split.
  - apply existsb_exists. exists (RNames l). split; [ | reflexivity].
    eapply in_splits, Hs.
  - apply existsb_exists. exists rc. split; [apply in_connects, Hc | ].
    rewrite Hrc. reflexivity.
Qed.

End CreateSummary.

Lemma failed_statement cfg stmts t_pop ok k s e :
  populate_trace cfg stmts t_pop ok ->
  k < length stmts ->
  executes t_pop !! k = Some (s, Raised e) ->
  ok = false /\
  stmts !! k = Some s /\
  map fst (executes t_pop) = take (S k) stmts /\
  (forall j x, j < k -> executes t_pop !! j = Some x -> is_raised x.2 = false) /\
  (forall role session r, ~ In (Call (sts_client_assume_role role session) r) t_pop).
Proof.
  intros Hpt Hk Hex.
  destruct Hpt as [k' s' e' t0 Hk' Hran | t0 r Hran _ | t0 a b c r Hran];
    apply ran_executes in Hran as (Hmap & Hok & Hcalls);
    rewrite executes_app in Hex; simpl in Hex.
  - assert (Hlen : length (executes t0) = k').
    { rewrite <- (length_map fst), Hmap, length_take.
      apply lookup_lt_Some in Hk'. lia. }
    destruct (lt_eq_lt_dec k k') as [[Hlt | ->] | Hgt].
    + rewrite lookup_app_l in Hex by lia.
      eapply Forall_lookup_1 in Hok; [ | exact Hex]. discriminate.
    + rewrite lookup_app_r in Hex by lia.
      rewrite Hlen, Nat.sub_diag in Hex. injection Hex as -> ->.
      split; [reflexivity | ]. split; [exact Hk' | ]. split; [ | split].
      * rewrite executes_app, map_app, Hmap. simpl.
        symmetry. apply take_S_r, Hk'.
      * intros j x Hj Hx. rewrite executes_app, lookup_app_l in Hx by (simpl; lia).
        eapply Forall_lookup_1 in Hok; [exact Hok | exact Hx].
      * intros role session r Hin. apply in_app_or in Hin as [Hin | [Hin | []]].
        -- rewrite List.Forall_forall in Hcalls.
           destruct (Hcalls _ Hin) as (s0 & r0 & Heq). discriminate.
        -- discriminate.
    + rewrite lookup_app_r in Hex by lia.
      rewrite Hlen in Hex. destruct (k - k') eqn:Hd; [lia | discriminate].
  - rewrite app_nil_r in Hex.
    eapply Forall_lookup_1 in Hok; [ | exact Hex]. discriminate.
  - assert (Hlen : length (executes t0) = length stmts)
      by (rewrite <- (length_map fst), Hmap; reflexivity).
    rewrite lookup_app_l in Hex by lia.
    eapply Forall_lookup_1 in Hok; [ | exact Hex]. discriminate.
Qed.

Lemma empty_script cfg t_pop ok :
  populate_trace cfg [] t_pop ok ->
  exists r_sts,
    match r_sts with
    | RCreds a s k =>
        exists r_imp,
          t_pop = [ Call (assume_role_call cfg) r_sts;
                    Call (conn_execute
                            (format_load (BUCKET_NAME cfg) (BUCKET_PATH cfg) a s k)) r_imp ] /\
          ok = negb (is_raised r_imp)
    | _ => t_pop = [Call (assume_role_call cfg) r_sts] /\ ok = false
    end.
Proof.
  intros [k s e t0 Hk _ | t0 r Hran Hr | t0 a b c r Hran].
  - discriminate.
  - apply Forall2_nil_inv_l in Hran as ->. exists r.
    destruct r as [e | | l | x | a b c]; auto.
    exfalso. exact (Hr a b c eq_refl).
  - apply Forall2_nil_inv_l in Hran as ->. exists (RCreds a b c), r. auto.
Qed.

(** ** The properties *)

Lemma load_config_with_DBPORT :
  load_config {[ "DBPORT" := "5432" ]} = Ok default_config.
Proof. vm_compute. reflexivity. Qed.

(** A Delete event when nothing is left to delete: each bucket is tried,
    the teardown is not run, the answer is [SUCCESS]. *)
Example delete_when_all_is_gone :
  let t := trace (lambda_handler bare_world default_config delete_event) [] in
  calls t =
    flat_map (fun b => [boto3_resource "s3"; s3_object_versions_delete b])
             (s3_buckets default_config) ++
    [cfnresponse_send delete_event SUCCESS] /\
  signals t = [SUCCESS].
Proof. vm_compute. auto. Qed.

(** A Create event that goes through: the teardown first, then the five
    statements, the credentials, the import, and [SUCCESS]. *)
Example create_goes_through :
  let t := trace (lambda_handler five_statements_world default_config
                    {[ "RequestType" := "Create" ]}) [] in
  map fst (executes t) =
    ["s1"; "s2"; "s3"; "s4"; "s5";
     format_load "" "labs/cfn_dependencies/c4w4a1/csv" "key" "secret" "token"] /\
  signals t = [SUCCESS].
Proof. vm_compute. auto. Qed.

(** With two databases besides ["default"], one of three tables and one
    of none: three attempts on tables, two on databases, the tables of a
    database before the database. *)
Example catalog_walk_two_databases :
  calls (trace (cleanup_catalog two_databases_world) []) =
    [ glue_get_databases;
      glue_get_tables "sales";
      glue_delete_table "sales" "orders";
      glue_delete_table "sales" "items";
      glue_delete_table "sales" "users";
      glue_delete_database "sales";
      glue_get_tables "staging";
      glue_delete_database "staging" ].
Proof. reflexivity. Qed.

(** C1: on a lifecycle event, an event that carries the six keys of the
    orchestrator's record, and whatever the collaborators of the teardown
    and of the load answer, when the reports return the handler sends
    exactly one completion signal and it goes out; the signal is [FAILED]
    if and only if the Create branch raised; a Delete event is answered
    [SUCCESS]; and the handler returns. *)
Theorem single_completion_signal (w : world) (cfg : config)
    (event : gmap string string) (h : history) :
  lifecycle_event event ->
  (forall h' st, is_raised (w h' (cfnresponse_send event st)) = false) ->
  let t := trace (lambda_handler w cfg event) h in
  (exists st,
     signals t = [st] /\
     delivered t = [st] /\
     (st = FAILED <-> provisioning_raised w cfg event h = true)) /\
  (event !! "RequestType" = Some DELETE -> signals t = [SUCCESS]) /\
  outcome (lambda_handler w cfg event) h = Ok tt.
Proof.
  intros Hev Hsend t. subst t.
  destruct (lambda_handler_delivers w cfg event h Hsend) as (Hout & Hdel & Hsig).
  pose proof (dispatch_raises w cfg event h) as Hr.
  assert (Hkeys : is_raise (outcome (dispatch w cfg event)
                              (h ++ [Log WARNING (LEvent event)])) = true <->
                  provisioning_raised w cfg event h = true).
  { rewrite Hr. split; [ | auto].
    intros [H | [H | (_ & k & Hin & Hk)]]; [ | exact H | ].
    - exfalso. apply (Hev "RequestType"); [left; reflexivity | exact H].
    - exfalso. apply (Hev k); [right; exact Hin | exact Hk]. }
  rewrite Hdel, Hsig.
  destruct (is_raise (outcome (dispatch w cfg event) _)) eqn:Hd.
  - split; [ | split; [ | exact Hout]].
    + exists FAILED. split; [reflexivity | ]. split; [reflexivity | ].
      split; [intros _; apply Hkeys; reflexivity | reflexivity].
    + intros E. apply proj1 in Hkeys. specialize (Hkeys eq_refl).
      unfold provisioning_raised in Hkeys. rewrite E in Hkeys. discriminate.
  - split; [ | split; [reflexivity | exact Hout]].
    exists SUCCESS. split; [reflexivity | ]. split; [reflexivity | ].
    split; [discriminate | ]. intros H. apply Hkeys in H. discriminate.
Qed.

Lemma single_completion_signal_witness :
  signals (trace (lambda_handler third_fails_world default_config create_event) []) = [FAILED] /\
  outcome (lambda_handler third_fails_world default_config create_event) [] = Ok tt.
Proof.
  destruct (single_completion_signal third_fails_world default_config create_event [])
    as ((st & Hs & _ & Hst) & _ & Hout).
  - intros k Hk. repeat (destruct Hk as [<- | Hk]; [discriminate | ]). destruct Hk.
  - intros h' st. reflexivity.
  - split; [ | exact Hout].
    assert (Hp : provisioning_raised third_fails_world default_config create_event [] = true)
      by (vm_compute; reflexivity).
    apply Hst in Hp. subst st. exact Hs.
Defined.

(** C2: the teardown never raises, and whatever its calls answer it opens
    every step of its fixed sequence, once and in order: the enumeration of
    the rule sets, the deletion of each job, the enumeration of the
    databases, the deletion of the connection, of the policy and of the
    role.  Each call that raised is followed at once by a log record of its
    exception.  Emptying a bucket never raises either, and logs what it
    caught. *)
Theorem terraform_cleanup_fault_isolation (w : world) (cfg : config) (h : history) :
  outcome (terraform_cleanup w cfg) h = Ok tt /\
  step_calls (trace (terraform_cleanup w cfg) h) =
    [glue_list_data_quality_rulesets] ++
    map glue_delete_job (glue_jobs cfg) ++
    [glue_get_databases; glue_delete_connection (connection_name cfg);
     policy_call cfg; role_call cfg] /\
  well_logged (trace (terraform_cleanup w cfg) h) /\
  (forall bucket,
     outcome (empty_bucket w bucket) h = Ok tt /\
     well_logged (trace (empty_bucket w bucket) h)).
Proof.
  split; [apply returns_Ok, terraform_cleanup_returns | ].
  split; [apply (terraform_cleanup_steps w cfg h) | ].
  split; [apply (terraform_cleanup_logged w cfg h) | ].
  intros bucket. split.
  - apply returns_Ok, empty_bucket_returns.
  - apply (empty_bucket_logged w bucket h).
Qed.

(** C3: in the trace of the teardown, each attempt to delete a database
    is preceded by the enumeration of its tables and by one attempt to
    delete each table enumerated, in that order and with no other call in
    between; each enumeration that comes back is followed by these attempts
    and by the attempt on the database; and no call enumerates or deletes
    the tables of ["default"] or deletes ["default"]. *)
Theorem catalog_walk_order (w : world) (cfg : config) (h : history) :
  tables_before_database (trace (terraform_cleanup w cfg) h) /\
  database_after_tables (trace (terraform_cleanup w cfg) h) /\
  (forall c r, In (Call c r) (trace (terraform_cleanup w cfg) h) ->
     touches_default c = false).
Proof.
  destruct (terraform_cleanup_ordered w cfg h) as [Hb Ha].
  split; [exact Hb | split; [exact Ha | ]].
  intros c r Hin.
  pose proof (terraform_cleanup_spares_default w cfg h) as Hs. simpl in Hs.
  rewrite List.Forall_forall in Hs. specialize (Hs _ Hin). simpl in Hs.
  destruct (touches_default c); [discriminate | reflexivity].
Qed.

(** C4: the trace of the teardown ends with the identity block: the call
    that deletes the policy of the role, a log record, the call that
    deletes the role, a log record.  No call on the role or its policy
    comes before, and the role is deleted whatever the deletion of the
    policy answered. *)
Theorem policy_before_role (w : world) (cfg : config) (h : history) :
  exists pre,
    let r1 := w (h ++ pre) (policy_call cfg) in
    let r2 := w ((h ++ pre) ++ [Call (policy_call cfg) r1; Log INFO (policy_log cfg r1)])
                (role_call cfg) in
    trace (terraform_cleanup w cfg) h =
      pre ++ [Call (policy_call cfg) r1; Log INFO (policy_log cfg r1);
              Call (role_call cfg) r2; Log INFO (role_log cfg r2)] /\
    Forall (fun a => on_calls (fun c => negb (is_iam_call c)) a = true) pre.
Proof.
  destruct (terraform_cleanup_tail w cfg h) as (pre & Ht & Hpre).
  exists pre. cbv zeta. split; [ | exact Hpre].
  rewrite Ht. unfold trace at 1. rewrite cleanup_iam_run. reflexivity.
Qed.

(** C5: on a Create event, when the statement at index [k] of the list
    that [sqlparse.split] returned raises on execution, the statements
    executed are exactly the first [k] of the list and that one, in order,
    none of the first [k] raising; nothing is executed after it, the import
    included; [assume_role] is not called; and the handler reports
    [FAILED], once. *)
Theorem create_fails_fast (w : world) (cfg : config) (event : gmap string string)
    (h : history) (sql : string) (stmts : list string) (k : nat) (s : string) (e : exn) :
  event !! "RequestType" = Some CREATE ->
  let t := trace (lambda_handler w cfg event) h in
  In (Call (sqlparse_split sql) (RNames stmts)) t ->
  k < length stmts ->
  executes t !! k = Some (s, Raised e) ->
  stmts !! k = Some s /\
  map fst (executes t) = take (S k) stmts /\
  (forall j x, j < k -> executes t !! j = Some x -> is_raised x.2 = false) /\
  (forall role session r, ~ In (Call (sts_client_assume_role role session) r) t) /\
  signals t = [FAILED].
Proof.
  intros E t Hsplit Hk Hex. subst t.
  destruct (create_summary w cfg event h E)
    as [(Hs & _ & _) | (stmts0 & ok & Hsp & Hpt & Hfail & _)].
  - rewrite (teardown_executes _ Hs) in Hex. discriminate.
  - apply in_splits in Hsplit. rewrite Hsp in Hsplit.
    destruct Hsplit as [[= <-] | []].
    rewrite <- executes_session in Hex |- *.
    destruct (failed_statement cfg stmts0 _ ok k s e Hpt Hk Hex)
      as (-> & H1 & H2 & H3 & H4).
    split; [exact H1 | ]. split; [exact H2 | ]. split; [exact H3 | ]. split.
    + intros role session r Hin. apply (H4 role session r).
      apply in_session_actions; [exact Hin | reflexivity].
    + apply (create_signals w cfg event h E). apply Hfail. reflexivity.
Qed.

Lemma create_fails_fast_witness :
  let event : gmap string string := {[ "RequestType" := "Create" ]} in
  let t := trace (lambda_handler third_fails_world default_config event) [] in
  map fst (executes t) = ["s1"; "s2"; "s3"] /\ signals t = [FAILED].
Proof.
  intros event t.
  destruct (create_fails_fast third_fails_world default_config event []
              "script" ["s1"; "s2"; "s3"; "s4"; "s5"] 2 "s3" (OtherError "syntax error"))
    as (_ & Hm & _ & _ & Hs).
  - reflexivity.
  - vm_compute. repeat (first [left; reflexivity | right]).
  - simpl. lia.
  - reflexivity.
  - split; [exact Hm | exact Hs].
Defined.

(** C6: the first step of the teardown deletes no rule set.  With one rule
    set in the catalog, the step enumerates it and then logs the
    [AttributeError] of looking up the delete method on the response; and
    in no environment does the teardown call
    [delete_data_quality_ruleset]. *)
Theorem rulesets_are_not_deleted :
  trace (cleanup_rulesets one_ruleset_world) [] =
    [ Call glue_list_data_quality_rulesets (RNames ["ruleset-1"]);
      Log INFO (LFailedRulesets (AttributeError "delete_data_quality_ruleset")) ] /\
  (forall w cfg h Name r,
     ~ In (Call (glue_delete_data_quality_ruleset Name) r) (trace (terraform_cleanup w cfg) h)).
Proof.
  split; [reflexivity | ].
  intros w cfg h Name r Hin.
  pose proof (terraform_cleanup_emits w cfg h) as He. simpl in He.
  rewrite List.Forall_forall in He. specialize (He _ Hin). discriminate.
Qed.

(** C7: reading the configuration does not succeed for every environment.
    All variables but one have a default that is used as it is; for
    [DBPORT] the default is the empty string, which [int] rejects: in every
    environment where [DBPORT] is unset the import of the module raises
    [ValueError]. *)
Theorem load_config_without_DBPORT (env : environ) :
  env !! "DBPORT" = None -> load_config env = Raise ValueError.
Proof.
  intros H. unfold load_config, os_getenv. rewrite H. reflexivity.
Qed.

Lemma load_config_without_DBPORT_witness :
  (∅ : environ) !! "DBPORT" = None /\ load_config ∅ = Raise ValueError.
Proof.
  split; [reflexivity | apply (load_config_without_DBPORT ∅); reflexivity].
Defined.

(** C8: on an event whose [RequestType] is there and is neither
    ["Create"] nor ["Delete"], the handler calls nothing but
    [cfnresponse.send]; it reports [SUCCESS], first and once; and when that
    report returns, it is the only one and the handler returns. *)
Theorem unknown_request_type (w : world) (cfg : config)
    (event : gmap string string) (h : history) (request_type : string) :
  event !! "RequestType" = Some request_type ->
  request_type <> CREATE ->
  request_type <> DELETE ->
  let t := trace (lambda_handler w cfg event) h in
  let rS := w (h ++ [Log WARNING (LEvent event)]) (cfnresponse_send event SUCCESS) in
  (forall c r, In (Call c r) t -> exists st, c = cfnresponse_send event st) /\
  (exists rest, signals t = SUCCESS :: rest /\ ~ In SUCCESS rest) /\
  (is_raised rS = false ->
     signals t = [SUCCESS] /\ outcome (lambda_handler w cfg event) h = Ok tt).
Proof.
  intros E HC HD t rS.
  assert (Hd : dispatch w cfg event (h ++ [Log WARNING (LEvent event)]) = ([], Ok tt)).
  { rewrite dispatch_run, E.
    rewrite !bool_decide_eq_false_2 by assumption. reflexivity. }
  pose proof (lambda_handler_run w cfg event h) as H. cbv zeta in H.
  unfold trace, outcome in H. rewrite Hd in H. simpl in H.
  rewrite app_nil_r in H. fold rS in H.
  subst t. unfold trace, outcome.
  destruct rS as [e | | | | ] eqn:ES; [destruct H as [hF H] | ..]; rewrite H; simpl.
  1: { split; [ | split; [ | discriminate]].
       - intros c r [Hin | [Hin | [Hin | [Hin | []]]]]; try discriminate;
           injection Hin as <- _; eauto.
       - exists [FAILED]. split; [reflexivity | ].
         intros [Hin | []]. discriminate. }
  all: split; [ | split; [ | auto]];
    [ intros c r [Hin | [Hin | []]]; try discriminate; injection Hin as <- _; eauto
    | exists []; split; [reflexivity | intros []] ].
Qed.

Lemma unknown_request_type_witness :
  let event : gmap string string := {[ "RequestType" := "Update" ]} in
  signals (trace (lambda_handler calm_world default_config event) []) = [SUCCESS] /\
  outcome (lambda_handler calm_world default_config event) [] = Ok tt.
Proof.
  intros event.
  apply (unknown_request_type calm_world default_config event [] "Update");
    [reflexivity | discriminate | discriminate | reflexivity].
Defined.

(** C9, as the code has it: on an event without [RequestType], and on a
    Delete event without one of the keys the Delete branch reads, the
    handler logs the [KeyError] of the lookup and then calls
    [cfnresponse.send] once, with [FAILED], as its last action, though the
    Create branch did not raise.  That call is outside any [try]: when it
    returns, the signal goes out and the handler returns; when it raises,
    no signal goes out and its exception leaves the handler. *)
Theorem missing_key_reports_failure (w : world) (cfg : config)
    (event : gmap string string) (h : history) :
  event !! "RequestType" = None \/
  (event !! "RequestType" = Some DELETE /\
   exists k, In k delete_keys /\ event !! k = None) ->
  let t := trace (lambda_handler w cfg event) h in
  provisioning_raised w cfg event h = false /\
  exists k r pre,
    event !! k = None /\
    t = pre ++ [Log ERROR (LError (KeyError k)); Call (cfnresponse_send event FAILED) r] /\
    signals pre = [] /\
    outcome (lambda_handler w cfg event) h =
      match r with Raised e => Raise e | _ => Ok tt end /\
    delivered t = if is_raised r then [] else [FAILED].
Proof.
  intros Hmiss t.
  set (h1 := h ++ [Log WARNING (LEvent event)]).
  assert (Hd : exists k,
            outcome (dispatch w cfg event) h1 = Raise (KeyError k) /\ event !! k = None).
  { unfold outcome. rewrite dispatch_run. destruct Hmiss as [E | (E & k & Hin & Hk)]; rewrite E.
    - exists "RequestType". auto.
    - change (bool_decide (DELETE = CREATE)) with false.
      change (bool_decide (DELETE = DELETE)) with true. cbv iota.
      destruct (delete_step_run w cfg event h1)
        as [(msg & _ & Hall) | (k' & -> & _ & Hk')].
      + exfalso. exact (Hall k Hin Hk).
      + eauto. }
  destruct Hd as (k & Hd & Hk).
  split.
  { unfold provisioning_raised. destruct Hmiss as [E | (E & _)]; rewrite E; reflexivity. }
  pose proof (lambda_handler_run w cfg event h) as H. cbv zeta in H. fold h1 in H.
  rewrite Hd in H. destruct H as [hF H].
  pose proof (dispatch_silent w cfg event h1) as Hs. simpl in Hs.
  set (td := trace (dispatch w cfg event) h1) in *.
  pose proof (signals_none td Hs) as Hsig.
  pose proof (delivered_none td Hs) as Hdel.
  exists k, (w hF (cfnresponse_send event FAILED)), (Log WARNING (LEvent event) :: td).
  subst t. unfold trace at 1 2, outcome. rewrite H. simpl.
  split; [exact Hk | ]. split; [reflexivity | ].
  split; [exact Hsig | ]. split; [reflexivity | ].
  rewrite delivered_app, Hdel. simpl.
  destruct (is_raised (w hF (cfnresponse_send event FAILED))); reflexivity.
Qed.

Lemma missing_key_reports_failure_witness :
  provisioning_raised calm_world default_config ∅ [] = false /\
  delivered (trace (lambda_handler calm_world default_config ∅) []) = [FAILED].
Proof.
  destruct (missing_key_reports_failure calm_world default_config ∅ [])
    as (Hp & k & r & pre & _ & _ & _ & Ho & Hd); [left; reflexivity | ].
  split; [exact Hp | ]. rewrite Hd.
  change (outcome (lambda_handler calm_world default_config ∅) []) with (@Ok unit tt) in Ho.
  destruct r; [discriminate Ho | reflexivity ..].
Defined.

(** C9, as the claim states it, fails on its own last key: on a Delete
    event without ['ResponseURL'], with a [cfnresponse.send] that needs it,
    the lookup error is caught and logged, but the report raises in its
    turn: the handler ends with that exception and no signal has gone
    out. *)
Lemma missing_key_reports_failure_counterexample :
  delete_event_without_url !! "RequestType" = Some DELETE /\
  delete_event_without_url !! "ResponseURL" = None /\
  outcome (lambda_handler url_reading_world default_config delete_event_without_url) [] =
    Raise (KeyError "ResponseURL") /\
  delivered (trace (lambda_handler url_reading_world default_config
                      delete_event_without_url) []) = [].
Proof. vm_compute. auto. Qed.

(** C10: on a Create event whose script splits into no statement, once
    the connection is open the first call on the session is
    [assume_role], and when credentials come back the import is the one
    statement executed; without credentials the Create branch raises.  When
    the Create branch does not raise, the handler reports [SUCCESS] first,
    and only [SUCCESS] when that report returns. *)
Theorem import_without_statements (w : world) (cfg : config)
    (event : gmap string string) (h : history) (sql : string) (rc : resp) :
  event !! "RequestType" = Some CREATE ->
  let t := trace (lambda_handler w cfg event) h in
  In (Call (sqlparse_split sql) (RNames [])) t ->
  In (Call engine_connect rc) t ->
  is_raised rc = false ->
  (exists r_sts,
     match r_sts with
     | RCreds a s k =>
         exists r_imp,
           session_actions t =
             [ Call (assume_role_call cfg) r_sts;
               Call (conn_execute
                       (format_load (BUCKET_NAME cfg) (BUCKET_PATH cfg) a s k)) r_imp ] /\
           (is_raised r_imp = true -> provisioning_raised w cfg event h = true)
     | _ =>
         session_actions t = [Call (assume_role_call cfg) r_sts] /\
         provisioning_raised w cfg event h = true
     end) /\
  (provisioning_raised w cfg event h = false ->
     (exists rest, signals t = SUCCESS :: rest) /\
     ((forall h', is_raised (w h' (cfnresponse_send event SUCCESS)) = false) ->
      signals t = [SUCCESS])).
Proof.
  intros E t Hsplit Hcon Hrc. subst t.
  destruct (create_summary w cfg event h E)
    as [(_ & Hop & _) | (stmts0 & ok & Hsp & Hpt & Hfail & _)].
  { rewrite (opened_intro sql [] rc _ Hsplit Hcon Hrc) in Hop. discriminate. }
  apply in_splits in Hsplit. rewrite Hsp in Hsplit.
  destruct Hsplit as [[= ->] | []].
  split.
  - destruct (empty_script cfg _ ok Hpt) as [r_sts Hr]. exists r_sts.
    destruct r_sts as [e | | l | x | a b c];
      try (destruct Hr as [Hr ->]; split; [exact Hr | apply Hfail; reflexivity]).
    destruct Hr as (r_imp & Hr & ->). exists r_imp. split; [exact Hr | ].
    intros Hi. apply Hfail. rewrite Hi. reflexivity.
  - intros Hp.
    destruct (create_signals w cfg event h E) as [_ Hs].
    destruct (Hs Hp) as [hS HS]. split.
    + rewrite HS. destruct (is_raised (w hS _)); eexists; reflexivity.
    + intros Hsend. rewrite HS, Hsend. reflexivity.
Qed.

Lemma import_without_statements_witness :
  let event : gmap string string := {[ "RequestType" := "Create" ]} in
  let t := trace (lambda_handler empty_script_world default_config event) [] in
  exists rest, signals t = SUCCESS :: rest.
Proof.
  intros event t.
  destruct (import_without_statements empty_script_world default_config event [] "" RNone)
    as (_ & Hs).
  - reflexivity.
  - vm_compute. repeat (first [left; reflexivity | right]).
  - vm_compute. repeat (first [left; reflexivity | right]).
  - reflexivity.
  - apply Hs. reflexivity.
Defined.

(** ** Further properties *)

Lemma append_inj (p a b : string) : p +:+ a = p +:+ b -> a = b.
Proof.
  induction p as [| c p IH]; simpl; intros H; [exact H | ].
  injection H as H. exact (IH H).
Qed.

(** X1: whatever the configuration, the five job names of the inventory
    are pairwise distinct, and so are the four bucket names. *)
Theorem inventory_names_distinct (cfg : config) :
  NoDup (glue_jobs cfg) /\ NoDup (s3_buckets cfg).
Proof.
  split.
  - change (glue_jobs cfg) with
      (String.append (PROJECT cfg) <$>
         [ "-api-users-extract-job"; "-api-sessions-extract-job"; "-rds-extract-job";
           "-json-transform-job"; "-songs-transform-job" ]).
    apply NoDup_fmap_2; [intros a b H; exact (append_inj _ _ _ H) | ].
    apply (bool_decide_unpack _). vm_compute. exact I.
  - change (s3_buckets cfg) with
      (bucket_name_of cfg <$> ["scripts"; "data-lake"; "dags"; "dbt"]).
    apply NoDup_fmap_2.
    + intros a b H. unfold bucket_name_of in H.
      repeat apply append_inj in H. exact H.
    + apply (bool_decide_unpack _). vm_compute. exact I.
Qed.

(** X2: [delete_table] and [delete_database] make one call, for the
    resource they are given, and return whatever it answers; they log the
    deletion exactly when the call returned, and that they could not
    delete exactly when it raised. *)
Theorem deleters_log_and_return (w : world) (db tbl : string) (h : history) :
  (outcome (delete_table w db tbl) h = Ok tt /\
   calls (trace (delete_table w db tbl) h) = [glue_delete_table db tbl] /\
   (In (Log INFO (LDeletedTable db tbl)) (trace (delete_table w db tbl) h) <->
    is_raised (w h (glue_delete_table db tbl)) = false) /\
   (In (Log INFO (LCouldntDeleteTable db tbl)) (trace (delete_table w db tbl) h) <->
    is_raised (w h (glue_delete_table db tbl)) = true)) /\
  (outcome (delete_database w db) h = Ok tt /\
   calls (trace (delete_database w db) h) = [glue_delete_database db] /\
   (In (Log INFO (LDeletedDatabase db)) (trace (delete_database w db) h) <->
    is_raised (w h (glue_delete_database db)) = false) /\
   (In (Log INFO (LCouldntDeleteDatabase db)) (trace (delete_database w db) h) <->
    is_raised (w h (glue_delete_database db)) = true)).
Proof.
  unfold trace, outcome, delete_table, delete_database, try_except, mbind, M_bind,
    bind, invoke, log. simpl.
  split.
  - destruct (w h (glue_delete_table db tbl)); simpl;
      (split; [reflexivity | split; [reflexivity | ]]);
      split; split; intros H; try discriminate; try reflexivity;
      simpl in *; intuition discriminate.
  - destruct (w h (glue_delete_database db)); simpl;
      (split; [reflexivity | split; [reflexivity | ]]);
      split; split; intros H; try discriminate; try reflexivity;
      simpl in *; intuition discriminate.
Qed.

(** X3: [empty_bucket] never raises; it asks for the S3 resource and, only
    when that returned, deletes the object versions of the bucket it is
    given; it logs a warning exactly when one of the two raised. *)
Theorem empty_bucket_attempt (w : world) (bucket : string) (h : history) :
  let t := trace (empty_bucket w bucket) h in
  outcome (empty_bucket w bucket) h = Ok tt /\
  calls t =
    (if is_raised (w h (boto3_resource "s3")) then [boto3_resource "s3"]
     else [boto3_resource "s3"; s3_object_versions_delete bucket]) /\
  ((exists e, In (Log WARNING (LEmptyBucketError bucket e)) t) <->
   Exists (fun a => is_raised_call a = true) t).
Proof.
  unfold trace, outcome, empty_bucket, try_except, mbind, M_bind, bind, invoke, log.
  simpl.
  destruct (w h (boto3_resource "s3")) eqn:E1; simpl.
  1: { repeat split; try reflexivity.
       - intros _. apply Exists_cons_hd. reflexivity.
       - intros _. eexists. right. left. reflexivity. }
  all: destruct (w (h ++ _) (s3_object_versions_delete bucket)) eqn:E2; simpl.
  all: repeat split; try reflexivity.
  all: try (intros _; apply Exists_cons_tl, Exists_cons_hd; reflexivity).
  all: try (intros _; eexists; right; right; left; reflexivity).
  all: try (intros [e [H | [H | []]]]; discriminate).
  all: intros H; exfalso; repeat (apply Exists_cons in H as [H | H]; [discriminate | ]);
    apply Exists_nil in H; exact H.
Qed.

(** X4: whatever happens, the handler sends one signal or two, never more
    and never none: [SUCCESS], or [FAILED], or [SUCCESS] and then [FAILED];
    and the last case is the one where the [SUCCESS] report raised. *)
Theorem signals_one_or_two (w : world) (cfg : config)
    (event : gmap string string) (h : history) :
  let t := trace (lambda_handler w cfg event) h in
  (signals t = [SUCCESS] \/ signals t = [FAILED] \/ signals t = [SUCCESS; FAILED]) /\
  (signals t = [SUCCESS; FAILED] <->
   exists e, In (Call (cfnresponse_send event SUCCESS) (Raised e)) t).
Proof.
  intros t. subst t.
  pose proof (lambda_handler_signals w cfg event h) as Hs.
  pose proof (lambda_handler_run w cfg event h) as Hr. cbv zeta in Hs, Hr.
  set (h1 := h ++ [Log WARNING (LEvent event)]) in *.
  set (td := trace (dispatch w cfg event) h1) in *.
  pose proof (dispatch_silent w cfg event h1) as Hd. fold td in Hd. simpl in Hd.
  assert (Hno : forall st r, ~ In (Call (cfnresponse_send event st) r) td).
  { intros st r Hin. rewrite List.Forall_forall in Hd.
    specialize (Hd _ Hin). discriminate. }
  rewrite Hs. unfold trace at 1. revert Hr.
  destruct (outcome (dispatch w cfg event) h1) as [[] | e].
  - destruct (w (h1 ++ td) (cfnresponse_send event SUCCESS)) as [e | | | | ] eqn:ES;
      intros Hr; [destruct Hr as [hF Hr] | ..]; rewrite Hr; simpl.
    { split; [auto | ]. split; [intros _ | reflexivity].
      exists e. right. apply in_or_app. right. left. reflexivity. }
    all: split; [auto | ]; split; [discriminate | ].
    all: intros [e [Hin | Hin]]; [discriminate | ].
    all: apply in_app_or in Hin as [Hin | [Hin | []]]; [destruct (Hno _ _ Hin) | discriminate].
  - intros [hF Hr]. rewrite Hr. simpl. split; [auto | ]. split; [discriminate | ].
    intros [e' [Hin | Hin]]; [discriminate | ].
    apply in_app_or in Hin as [Hin | [Hin | [Hin | []]]];
      [destruct (Hno _ _ Hin) | discriminate | discriminate].
Qed.

(** X5: no exception leaves the handler other than one of the [FAILED]
    report: when the handler raises, its last action is that report, which
    raised that exception.  So the handler returns whenever that report
    does. *)
Theorem only_the_last_report_escapes (w : world) (cfg : config)
    (event : gmap string string) (h : history) :
  (forall e, outcome (lambda_handler w cfg event) h = Raise e ->
     exists pre,
       trace (lambda_handler w cfg event) h =
         pre ++ [Call (cfnresponse_send event FAILED) (Raised e)]) /\
  ((forall h', is_raised (w h' (cfnresponse_send event FAILED)) = false) ->
   outcome (lambda_handler w cfg event) h = Ok tt).
Proof.
  pose proof (lambda_handler_run w cfg event h) as Hr. cbv zeta in Hr.
  set (h1 := h ++ [Log WARNING (LEvent event)]) in *.
  set (td := trace (dispatch w cfg event) h1) in *.
  unfold trace, outcome. revert Hr.
  destruct (outcome (dispatch w cfg event) h1) as [[] | e0];
    [destruct (w (h1 ++ td) (cfnresponse_send event SUCCESS)) as [e1 | | | | ] eqn:ES | ];
    intros Hr;
    match type of Hr with ex _ => destruct Hr as [hF Hr] | _ => idtac end;
    rewrite Hr; simpl.
  2-5: split; [discriminate | reflexivity].
  all: split;
    [ intros e He; destruct (w hF (cfnresponse_send event FAILED)) eqn:EF; try discriminate;
      injection He as ->
    | intros Hsend; specialize (Hsend hF);
      destruct (w hF (cfnresponse_send event FAILED)); [discriminate | reflexivity ..] ].
  - exists (Log WARNING (LEvent event) :: td ++
            [Call (cfnresponse_send event SUCCESS) (Raised e1); Log ERROR (LError e1)]).
    simpl. rewrite <- app_assoc. reflexivity.
  - exists (Log WARNING (LEvent event) :: td ++ [Log ERROR (LError e0)]).
    simpl. rewrite <- app_assoc. reflexivity.
Qed.

Lemma only_the_last_report_escapes_witness :
  outcome (lambda_handler calm_world default_config ∅) [] = Ok tt.
Proof.
  apply (only_the_last_report_escapes calm_world default_config ∅ []).
  intros h'. reflexivity.
Defined.

(** *** The walk, when a listing fails and when none does *)

Lemma database_deletes_app t1 t2 :
  database_deletes (t1 ++ t2) = database_deletes t1 ++ database_deletes t2.
Proof. unfold database_deletes. rewrite calls_app. apply flat_map_app. Qed.

Lemma database_deletes_tables db tables t :
  calls t = map (glue_delete_table db) tables -> database_deletes t = [].
Proof.
  unfold database_deletes. intros ->.
  induction tables as [| tbl tables IH]; [reflexivity | exact IH].
Qed.

Lemma database_deletes_none t :
  Forall (fun a => on_calls (fun c => negb (is_walk_call c)) a = true) t ->
  database_deletes t = [].
Proof.
  induction 1 as [| a t Ha _ IH]; [reflexivity | ].
  change (a :: t) with ([a] ++ t). rewrite database_deletes_app, IH, app_nil_r.
  destruct a as [[] r | lvl msg]; try reflexivity. discriminate.
Qed.

Section StopsAt.

Variable P : action -> Prop.

Lemma stops_at_none {A} t (r : result A) :
  (forall a, In a t -> ~ P a) -> stops_at P t r.
Proof.
  intros H pre a post -> Ha. exfalso. apply (H a); [ | exact Ha].
  apply in_or_app. right. left. reflexivity.
Qed.

Lemma stops_at_bind {A B} (m : M A) (f : A -> M B) :
  sat m (stops_at P) -> (forall a, sat (f a) (stops_at P)) -> sat (m ≫= f) (stops_at P).
Proof.
  intros Hm Hf. eapply sat_bind; [exact Hm | | auto].
  intros t1 a H1. eapply sat_weaken; [apply (Hf a) | ].
  intros t2 r2 H2 pre x post Ht Hx.
  apply app_split in Ht as [[post1 [Ht _]] | [pre2 [Ht _]]].
  - destruct (H1 _ _ _ Ht Hx) as [_ Habs]. discriminate.
  - exact (H2 _ _ _ Ht Hx).
Qed.

Lemma stops_at_for_each {A} (l : list A) (body : A -> M unit) :
  (forall x, sat (body x) (stops_at P)) -> sat (for_each l body) (stops_at P).
Proof.
  intros Hb. induction l as [| x l IH]; simpl.
  - apply sat_ret. apply stops_at_none. intros a [].
  - apply stops_at_bind; auto.
Qed.

End StopsAt.

Section WalkEnds.

Variable w : world.
Variable cfg : config.

Lemma walk_database_stops db :
  sat (walk_database w db) (stops_at failed_get_tables).
Proof.
  intros h. unfold trace, outcome.
  destruct (w h (glue_get_tables db)) as [e | | tables | x | a b c] eqn:E.
  3: { destruct (walk_database_run w db tables h E) as (t & r & logs & -> & Ht & Hlogs).
       simpl. apply stops_at_none. intros a Hin (db' & r' & -> & Hr').
       destruct Hin as [Hin | Hin]; [injection Hin as _ <-; discriminate | ].
       apply in_app_or in Hin as [Hin | [Hin | Hin]].
       - revert Hin. eapply not_in_tables; [exact Ht | discriminate ..].
       - discriminate.
       - revert Hin. apply not_in_logs, Hlogs. }
  all: destruct (walk_database_stop w db h) as [e' ->]; [rewrite E; discriminate | ];
    simpl; intros [| a0 [| b0 pre]] a1 post Ht _; simpl in Ht; try discriminate;
    injection Ht as _ <-; auto.
Qed.

(** The body of the [try] of the walk. *)
Lemma walk_stops :
  sat (glue_databases ← invoke w glue_get_databases;
       glue_database_list ← names_of glue_databases;
       for_each glue_database_list (fun glue_database_name =>
         if bool_decide ("default" = glue_database_name) then mret tt
         else walk_database w glue_database_name))
      (stops_at failed_get_tables).
Proof.
  apply stops_at_bind.
  { apply sat_invoke. intros r. apply stops_at_none.
    intros a [<- | []] (db & r' & Heq & _). discriminate. }
  intros r. apply stops_at_bind.
  { destruct r; simpl; first [apply sat_ret | apply sat_raise];
      apply stops_at_none; intros a []. }
  intros dbs. apply stops_at_for_each. intros db.
  destruct (bool_decide ("default" = db)).
  - apply sat_ret. apply stops_at_none. intros a [].
  - apply walk_database_stops.
Qed.

Lemma cleanup_catalog_stops h pre db r post :
  trace (cleanup_catalog w) h = pre ++ Call (glue_get_tables db) r :: post ->
  is_names r = false ->
  exists e, post = [Log INFO (LFailedDatabases e)].
Proof.
  revert pre db r post.
  assert (H : sat (cleanup_catalog w) (fun t _ =>
            forall pre db r post,
              t = pre ++ Call (glue_get_tables db) r :: post -> is_names r = false ->
              exists e, post = [Log INFO (LFailedDatabases e)])).
  { eapply sat_try; [apply walk_stops | | ].
    - intros t1 a H1 pre db r post Ht Hr.
      destruct (H1 pre _ post Ht) as [_ Habs]; [exists db, r; auto | discriminate].
    - intros t1 e H1. apply sat_log. intros pre db r post Ht Hr.
      apply app_split in Ht as [[post1 [Ht ->]] | [pre2 [Ht _]]].
      + destruct (H1 pre _ post1 Ht) as [-> _]; [exists db, r; auto | ].
        exists e. reflexivity.
      + destruct pre2 as [| x [| y pre2]]; discriminate. }
  exact (H h).
Qed.

End WalkEnds.

Section TeardownParts.

Variable w : world.
Variable cfg : config.

Lemma cleanup_connection_calls h :
  calls (trace (cleanup_connection w cfg) h) = [glue_delete_connection (connection_name cfg)].
Proof.
  unfold trace, cleanup_connection, try_except, mbind, M_bind, bind, invoke, log. simpl.
  destruct (w h _); reflexivity.
Qed.

Lemma cleanup_iam_calls h :
  calls (trace (cleanup_iam w cfg) h) = [policy_call cfg; role_call cfg].
Proof. unfold trace. rewrite cleanup_iam_run. reflexivity. Qed.

(** The teardown is what comes before the walk, the walk, the connection,
    the identity block. *)
Lemma terraform_cleanup_parts h :
  exists t12 t4 t5,
    trace (terraform_cleanup w cfg) h =
      t12 ++ trace (cleanup_catalog w) (h ++ t12) ++ t4 ++ t5 /\
    Forall (fun a => on_calls (fun c => negb (is_catalog_call c)) a = true) t12 /\
    calls t4 = [glue_delete_connection (connection_name cfg)] /\
    calls t5 = [policy_call cfg; role_call cfg].
Proof.
  unfold terraform_cleanup.
  assert (E1 : emits (on_calls (fun c => negb (is_catalog_call c))) (cleanup_rulesets w))
    by (unfold cleanup_rulesets; repeat emits_step).
  assert (E2 : emits (on_calls (fun c => negb (is_catalog_call c))) (cleanup_jobs w cfg))
    by (unfold cleanup_jobs; repeat emits_step).
  destruct (run_seq (cleanup_rulesets w)
    (cleanup_jobs w cfg;; cleanup_catalog w;; cleanup_connection w cfg;; cleanup_iam w cfg) h
    (cleanup_rulesets_returns w)) as [-> _].
  set (t1 := trace (cleanup_rulesets w) h). specialize (E1 h). fold t1 in E1.
  destruct (run_seq (cleanup_jobs w cfg)
    (cleanup_catalog w;; cleanup_connection w cfg;; cleanup_iam w cfg) (h ++ t1)
    (cleanup_jobs_returns w cfg)) as [-> _].
  set (t2 := trace (cleanup_jobs w cfg) (h ++ t1)). specialize (E2 (h ++ t1)). fold t2 in E2.
  destruct (run_seq (cleanup_catalog w)
    (cleanup_connection w cfg;; cleanup_iam w cfg) ((h ++ t1) ++ t2)
    (cleanup_catalog_returns w)) as [-> _].
  set (t3 := trace (cleanup_catalog w) ((h ++ t1) ++ t2)).
  destruct (run_seq (cleanup_connection w cfg) (cleanup_iam w cfg) (((h ++ t1) ++ t2) ++ t3)
    (cleanup_connection_returns w cfg)) as [-> _].
  exists (t1 ++ t2), (trace (cleanup_connection w cfg) (((h ++ t1) ++ t2) ++ t3)),
    (trace (cleanup_iam w cfg)
       ((((h ++ t1) ++ t2) ++ t3) ++ trace (cleanup_connection w cfg) (((h ++ t1) ++ t2) ++ t3))).
  split; [ | split; [ | split]].
  - subst t3. rewrite <- !app_assoc. reflexivity.
  - simpl in *. apply Forall_app_2; assumption.
  - apply cleanup_connection_calls.
  - apply cleanup_iam_calls.
Qed.

End TeardownParts.

(** X6: when the listing of the tables of a database fails, the walk ends
    there: the teardown logs the failure, leaves the databases that were
    still to come untouched, and goes on with the connection, the policy
    and the role. *)
Theorem failed_listing_ends_the_walk (w : world) (cfg : config) (h : history)
    (pre post : list action) (db : string) (r : resp) :
  trace (terraform_cleanup w cfg) h = pre ++ Call (glue_get_tables db) r :: post ->
  is_names r = false ->
  exists e rest,
    post = Log INFO (LFailedDatabases e) :: rest /\
    calls rest =
      [glue_delete_connection (connection_name cfg); policy_call cfg; role_call cfg].
Proof.
  intros Ht Hr.
  destruct (terraform_cleanup_parts w cfg h) as (t12 & t4 & t5 & Hparts & H12 & H4 & H5).
  rewrite Hparts in Ht.
  apply app_split in Ht as [[post1 [Ht _]] | [pre2 [Ht _]]].
  { exfalso. rewrite Ht in H12. apply Forall_app in H12 as [_ H12].
    apply Forall_inv in H12. discriminate. }
  apply app_split in Ht as [[post3 [Ht ->]] | [pre3 [Ht _]]].
  - destruct (cleanup_catalog_stops w _ _ _ _ _ Ht Hr) as [e ->].
    exists e, (t4 ++ t5). split; [reflexivity | ].
    rewrite calls_app, H4, H5. reflexivity.
  - exfalso.
    assert (Hin : In (glue_get_tables db) (calls (t4 ++ t5))).
    { rewrite Ht. rewrite calls_app. apply in_or_app. right. left. reflexivity. }
    rewrite calls_app, H4, H5 in Hin. simpl in Hin.
    destruct Hin as [Hin | [Hin | [Hin | []]]]; discriminate.
Qed.

Lemma failed_listing_ends_the_walk_witness :
  exists pre post,
    trace (terraform_cleanup second_listing_fails_world default_config) [] =
      pre ++ Call (glue_get_tables "staging") (Raised (ClientError "AccessDeniedException")) :: post /\
    ~ In (glue_get_tables "archive") (calls post).
Proof.
  set (t := trace (terraform_cleanup second_listing_fails_world default_config) []).
  exists (firstn 16 t), (skipn 17 t).
  assert (Ht : t = firstn 16 t ++
               Call (glue_get_tables "staging") (Raised (ClientError "AccessDeniedException")) ::
               skipn 17 t)
    by (vm_compute; reflexivity).
  split; [exact Ht | ].
  destruct (failed_listing_ends_the_walk second_listing_fails_world default_config [] _ _ _ _
              Ht eq_refl) as (e & rest & -> & Hrest).
  simpl. rewrite Hrest. simpl. intros [H | [H | [H | []]]]; discriminate.
Defined.

Section WalkComplete.

Variable w : world.
Hypothesis listings_return : forall h db, is_names (w h (glue_get_tables db)) = true.

Lemma walk_all_databases dbs h :
  exists t,
    for_each dbs (fun db =>
      if bool_decide ("default" = db) then mret tt else walk_database w db) h = (t, Ok tt) /\
    database_deletes t = filter (fun db => "default" <> db) dbs.
Proof.
  revert h. induction dbs as [| db dbs IH]; intros h; simpl.
  - exists []. auto.
  - unfold mbind, M_bind, bind. destruct (bool_decide ("default" = db)) eqn:Ed.
    + apply bool_decide_eq_true_1 in Ed. simpl.
      destruct (IH (h ++ [])) as (t & -> & Ht). exists t.
      split; [reflexivity | ]. rewrite filter_cons_False by auto. exact Ht.
    + apply bool_decide_eq_false_1 in Ed.
      pose proof (listings_return h db) as Hn.
      destruct (w h (glue_get_tables db)) as [e | | tables | x | a b c] eqn:E;
        try discriminate.
      destruct (walk_database_run w db tables h E) as (t1 & r & logs & -> & Ht1 & Hlogs).
      destruct (IH (h ++ Call (glue_get_tables db) (RNames tables)
                      :: t1 ++ Call (glue_delete_database db) r :: logs)) as (t & -> & Ht).
      eexists. split; [reflexivity | ].
      rewrite filter_cons_True by exact Ed. rewrite <- Ht.
      change (Call (glue_get_tables db) (RNames tables)
                :: t1 ++ Call (glue_delete_database db) r :: logs)
        with ([Call (glue_get_tables db) (RNames tables)] ++ t1 ++
              [Call (glue_delete_database db) r] ++ logs).
      rewrite !database_deletes_app, (database_deletes_tables db tables t1 Ht1).
      unfold database_deletes at 3. rewrite Hlogs. reflexivity.
Qed.

Lemma cleanup_catalog_complete h dbs :
  w h glue_get_databases = RNames dbs ->
  exists t,
    trace (cleanup_catalog w) h = Call glue_get_databases (RNames dbs) :: t /\
    database_deletes t = filter (fun db => "default" <> db) dbs.
Proof.
  intros E.
  destruct (walk_all_databases dbs ((h ++ [Call glue_get_databases (RNames dbs)]) ++ []))
    as (t & Ht & Hd).
  exists t. split; [ | exact Hd].
  unfold trace, cleanup_catalog, try_except, mbind, M_bind, bind, invoke.
  rewrite E. simpl.
  unfold mbind, M_bind, bind in Ht. rewrite Ht. reflexivity.
Qed.

End WalkComplete.

(** The walk opens with the enumeration of the databases and does not
    enumerate them again. *)
Lemma cleanup_catalog_head (w : world) (h : history) :
  exists rest,
    trace (cleanup_catalog w) h = Call glue_get_databases (w h glue_get_databases) :: rest /\
    forall r, ~ In (Call glue_get_databases r) rest.
Proof.
  pose proof (cleanup_catalog_steps w h) as Hs. simpl in Hs.
  assert (Hhead : exists rest,
            trace (cleanup_catalog w) h = Call glue_get_databases (w h glue_get_databases) :: rest).
  { unfold trace, cleanup_catalog, try_except, mbind, M_bind, bind at 1, invoke at 1.
    destruct (w h glue_get_databases) eqn:E; simpl; try (eexists; reflexivity).
    match goal with
    | |- context [bind ?m ?f ?h'] => destruct (bind m f h') as [t [[] | e]]
    end; simpl; eexists; reflexivity. }
  destruct Hhead as [rest Hhead]. exists rest. split; [exact Hhead | ].
  intros r Hin. rewrite Hhead in Hs.
  unfold step_calls in Hs. rewrite calls_cons in Hs.
  rewrite filter_cons_True in Hs by reflexivity. injection Hs as Hs.
  apply in_calls in Hin. apply list_elem_of_In in Hin.
  exact (filter_nil_not_elem_of _ _ glue_get_databases Hs eq_refl Hin).
Qed.

(** X7: when every listing of tables returns, the walk leaves no database
    out: the databases the teardown attempts to delete are those that the
    enumeration returned, in its order, without ["default"]. *)
Theorem walk_visits_every_database (w : world) (cfg : config) (h : history)
    (dbs : list string) :
  (forall h' db, is_names (w h' (glue_get_tables db)) = true) ->
  In (Call glue_get_databases (RNames dbs)) (trace (terraform_cleanup w cfg) h) ->
  database_deletes (trace (terraform_cleanup w cfg) h) =
    filter (fun db => "default" <> db) dbs.
Proof.
  intros Hlist Hin.
  destruct (terraform_cleanup_parts w cfg h) as (t12 & t4 & t5 & Hparts & H12 & H4 & H5).
  destruct (cleanup_catalog_head w (h ++ t12)) as (rest & Hhead & Hrest).
  rewrite Hparts in Hin |- *. rewrite Hhead in Hin |- *.
  assert (E : w (h ++ t12) glue_get_databases = RNames dbs).
  { apply in_app_or in Hin as [Hin | Hin].
    - exfalso. rewrite List.Forall_forall in H12. specialize (H12 _ Hin). discriminate.
    - destruct Hin as [Hin | Hin]; [injection Hin as ->; reflexivity | ].
      exfalso. apply in_app_or in Hin as [Hin | Hin]; [exact (Hrest _ Hin) | ].
      apply in_calls in Hin. rewrite calls_app, H4, H5 in Hin.
      destruct Hin as [Hin | [Hin | [Hin | []]]]; discriminate. }
  destruct (cleanup_catalog_complete w Hlist (h ++ t12) dbs E) as (t & Ht & Hd).
  rewrite Hhead in Ht. injection Ht as _ ->.
  change (Call glue_get_databases (w (h ++ t12) glue_get_databases) :: t)
    with ([Call glue_get_databases (w (h ++ t12) glue_get_databases)] ++ t).
  rewrite !database_deletes_app, Hd.
  rewrite (database_deletes_none t12).
  2: { eapply Forall_impl; [exact H12 | ]. intros [[] r | lvl msg]; simpl; auto. }
  unfold database_deletes at 2 3. rewrite H4, H5. simpl.
  rewrite app_nil_r. reflexivity.
Qed.

Lemma walk_visits_every_database_witness :
  database_deletes (trace (terraform_cleanup two_databases_world default_config) []) =
    ["sales"; "staging"].
Proof.
  apply (walk_visits_every_database two_databases_world default_config []
           ["sales"; "default"; "staging"]).
  - intros h' db. unfold two_databases_world.
    destruct (decide (db = "sales")) as [-> | Hne]; [reflexivity | ].
    destruct db as [| c0 db]; [reflexivity | ].
    repeat match goal with
           | |- context [match ?x with _ => _ end] => destruct x; try reflexivity
           end.
  - vm_compute. repeat (first [left; reflexivity | right]).
Defined.

(** *** The Delete branch *)

Lemma bucket_deletes_app t1 t2 :
  bucket_deletes (t1 ++ t2) = bucket_deletes t1 ++ bucket_deletes t2.
Proof. unfold bucket_deletes. rewrite calls_app. apply flat_map_app. Qed.

Lemma bucket_deletes_none t :
  Forall (fun a => on_calls (fun c => negb (is_bucket_call c)) a = true) t ->
  bucket_deletes t = [].
Proof.
  induction 1 as [| a t Ha _ IH]; [reflexivity | ].
  change (a :: t) with ([a] ++ t). rewrite bucket_deletes_app, IH, app_nil_r.
  destruct a as [[] r | lvl msg]; try reflexivity. discriminate.
Qed.

(** The handler's trace: the first log record, the dispatch, the report. *)
Lemma lambda_handler_layout (w : world) (cfg : config)
    (event : gmap string string) (h : history) :
  exists tail,
    trace (lambda_handler w cfg event) h =
      Log WARNING (LEvent event) ::
      trace (dispatch w cfg event) (h ++ [Log WARNING (LEvent event)]) ++ tail /\
    Forall (fun a => on_calls is_send a = true) tail.
Proof.
  pose proof (lambda_handler_run w cfg event h) as Hr. cbv zeta in Hr.
  set (h1 := h ++ [Log WARNING (LEvent event)]) in *.
  set (td := trace (dispatch w cfg event) h1) in *.
  unfold trace at 1. revert Hr.
  destruct (outcome (dispatch w cfg event) h1) as [[] | e0];
    [destruct (w (h1 ++ td) (cfnresponse_send event SUCCESS)) as [e1 | | | | ] eqn:ES | ];
    intros Hr;
    match type of Hr with ex _ => destruct Hr as [hF Hr] | _ => idtac end;
    rewrite Hr; simpl; eexists; (split; [reflexivity | repeat constructor]).
Qed.

Section DeleteBranch.

Variable w : world.
Variable cfg : config.

Lemma empty_bucket_deletes bucket h :
  bucket_deletes (trace (empty_bucket w bucket) h) =
    if is_raised (w h (boto3_resource "s3")) then [] else [bucket].
Proof.
  unfold trace, empty_bucket, try_except, mbind, M_bind, bind, invoke, log. simpl.
  destruct (w h (boto3_resource "s3")); simpl; try reflexivity;
    destruct (w (h ++ _) (s3_object_versions_delete bucket)); reflexivity.
Qed.

Lemma empty_buckets_deletes buckets h :
  let t := trace (for_each buckets (empty_bucket w)) h in
  sublist (bucket_deletes t) buckets /\
  ((forall h', is_raised (w h' (boto3_resource "s3")) = false) ->
   bucket_deletes t = buckets).
Proof.
  revert h. induction buckets as [| b buckets IH]; intros h; simpl.
  - split; [constructor | reflexivity].
  - destruct (run_seq (empty_bucket w b) (for_each buckets (empty_bucket w)) h
                (empty_bucket_returns w b)) as [-> _].
    rewrite bucket_deletes_app, empty_bucket_deletes.
    destruct (IH (h ++ trace (empty_bucket w b) h)) as [IH1 IH2]. split.
    + destruct (is_raised _); simpl; [apply sublist_cons | apply sublist_skip]; exact IH1.
    + intros Hres. rewrite Hres. simpl. f_equal. exact (IH2 Hres).
Qed.

Lemma delete_step_trace event h :
  exists logs,
    trace (delete_step w cfg event) h =
      trace (for_each (s3_buckets cfg) (empty_bucket w)) h ++ logs /\
    calls logs = [].
Proof.
  unfold trace at 1.
  destruct (delete_step_run w cfg event h) as [(msg & -> & _) | (k & -> & _)]; simpl.
  - eexists. split; [reflexivity | reflexivity].
  - exists []. rewrite app_nil_r. auto.
Qed.

End DeleteBranch.

(** X8: on a Delete event the handler calls S3 and [cfnresponse.send] and
    nothing else: the teardown is not run and no Glue or IAM resource is
    deleted.  The buckets it empties are buckets of the inventory, in the
    order of the inventory; and when the S3 resource can be had, it tries
    all four, whatever the deletions answer. *)
Theorem delete_only_empties_buckets (w : world) (cfg : config)
    (event : gmap string string) (h : history) :
  event !! "RequestType" = Some DELETE ->
  let t := trace (lambda_handler w cfg event) h in
  (forall c r, In (Call c r) t -> is_bucket_call c = true \/ is_send c = true) /\
  sublist (bucket_deletes t) (s3_buckets cfg) /\
  ((forall h', is_raised (w h' (boto3_resource "s3")) = false) ->
   bucket_deletes t = s3_buckets cfg).
Proof.
  intros E t. subst t.
  destruct (lambda_handler_layout w cfg event h) as (tail & -> & Htail).
  set (h1 := h ++ [Log WARNING (LEvent event)]).
  assert (Hd : trace (dispatch w cfg event) h1 = trace (delete_step w cfg event) h1).
  { unfold trace. rewrite dispatch_run, E. reflexivity. }
  rewrite Hd.
  destruct (delete_step_trace w cfg event h1) as (logs & -> & Hcalls).
  set (tb := trace (for_each (s3_buckets cfg) (empty_bucket w)) h1).
  assert (Hb : Forall (fun a => on_calls is_bucket_call a = true) tb).
  { assert (He : emits (on_calls is_bucket_call) (for_each (s3_buckets cfg) (empty_bucket w)))
      by (unfold empty_bucket; repeat emits_step).
    exact (He h1). }
  assert (Hproj : bucket_deletes (Log WARNING (LEvent event) :: (tb ++ logs) ++ tail) =
                  bucket_deletes tb).
  { change (Log WARNING (LEvent event) :: (tb ++ logs) ++ tail)
      with ([Log WARNING (LEvent event)] ++ (tb ++ logs) ++ tail).
    rewrite !bucket_deletes_app.
    assert (H1 : bucket_deletes logs = []) by (unfold bucket_deletes; rewrite Hcalls; reflexivity).
    assert (H2 : bucket_deletes tail = []).
    { apply bucket_deletes_none. eapply Forall_impl; [exact Htail | ].
      intros [[] r | lvl msg]; simpl; auto; discriminate. }
    rewrite H1, H2, !app_nil_r. reflexivity. }
  rewrite Hproj.
  destruct (empty_buckets_deletes w (s3_buckets cfg) h1) as [Hsub Hall]. fold tb in Hsub, Hall.
  split; [ | split; [exact Hsub | exact Hall]].
  intros c r [Hin | Hin]; [discriminate | ].
  apply in_app_or in Hin as [Hin | Hin].
  - apply in_app_or in Hin as [Hin | Hin].
    + left. rewrite List.Forall_forall in Hb. exact (Hb _ Hin).
    + exfalso. apply in_calls in Hin. rewrite Hcalls in Hin. exact Hin.
  - right. rewrite List.Forall_forall in Htail. exact (Htail _ Hin).
Qed.

Lemma delete_only_empties_buckets_witness :
  bucket_deletes (trace (lambda_handler bare_world default_config delete_event) []) =
    s3_buckets default_config.
Proof.
  apply (delete_only_empties_buckets bare_world default_config delete_event []).
  - reflexivity.
  - intros h'. reflexivity.
Defined.

(** *** The Create branch *)

Lemma strict_ret {A} (a : A) : strict (mret a : M A).
Proof. apply sat_ret. intros _. constructor. Qed.

Lemma strict_raise {A} (e : exn) : strict (raise e : M A).
Proof. apply sat_raise. discriminate. Qed.

Lemma strict_log lvl msg : strict (log lvl msg).
Proof. apply sat_log. intros _. repeat constructor. Qed.

Lemma strict_invoke w c : strict (invoke w c).
Proof.
  apply sat_invoke. intros r.
  destruct r; simpl; try discriminate; intros _; repeat constructor.
Qed.

Lemma strict_bind {A B} (m : M A) (f : A -> M B) :
  strict m -> (forall a, strict (f a)) -> strict (m ≫= f).
Proof.
  intros Hm Hf. eapply sat_bind; [exact Hm | | discriminate].
  intros t1 a Ht1. eapply sat_weaken; [apply Hf | ].
  intros t2 r2 Ht2 Hr. apply Forall_app. split; [apply Ht1; reflexivity | apply Ht2, Hr].
Qed.

Lemma strict_for_each {A} (l : list A) (body : A -> M unit) :
  (forall x, strict (body x)) -> strict (for_each l body).
Proof.
  intros Hb. induction l as [| x l IH]; simpl.
  - apply strict_ret.
  - apply strict_bind; [apply Hb | intros _; exact IH].
Qed.

Lemma strict_finally {A} (body : M A) (leave : M unit) :
  strict body -> strict leave -> strict (finally body leave).
Proof.
  intros Hb Hl. eapply sat_finally; [exact Hb | exact Hl | ].
  intros t1 r1 t2 r2 H1 H2 Hr. simpl in *. destruct r2 as [[] | e]; [ | discriminate].
  apply Forall_app. split; [apply H1, Hr | apply H2; reflexivity].
Qed.

Lemma strict_names_of r : strict (names_of r).
Proof. destruct r; first [apply strict_ret | apply strict_raise]. Qed.

Lemma strict_text_of r : strict (text_of r).
Proof. destruct r; first [apply strict_ret | apply strict_raise]. Qed.

Lemma strict_creds_of r : strict (creds_of r).
Proof. destruct r; first [apply strict_ret | apply strict_raise]. Qed.

(** One step of a syntax-directed proof of [strict]. *)
Ltac strict_step :=
  match goal with
  | |- strict (mret _) => apply strict_ret
  | |- strict (raise _) => apply strict_raise
  | |- strict (log _ _) => apply strict_log
  | |- strict (invoke _ _) => apply strict_invoke
  | |- strict (names_of _) => apply strict_names_of
  | |- strict (text_of _) => apply strict_text_of
  | |- strict (creds_of _) => apply strict_creds_of
  | |- strict (_ ≫= _) => apply strict_bind; [ | intros]
  | |- strict (finally _ _) => apply strict_finally
  | |- strict (for_each _ _) => apply strict_for_each; intros
  | |- strict (let '(_, _) := ?x in _) => destruct x
  end.

Lemma load_dataset_strict w cfg : strict (load_dataset w cfg).
Proof.
  unfold load_dataset, populate, sts_assume_role, execute. repeat strict_step.
Qed.

Lemma in_session_actions_inv a t : In a (session_actions t) -> In a t.
Proof.
  unfold session_actions. intros H. apply in_flat_map in H as (b & Hb & Hin).
  destruct (is_session_action b); [ | destruct Hin].
  destruct Hin as [<- | []]. exact Hb.
Qed.

Lemma closes_app t1 t2 : closes (t1 ++ t2) = closes t1 ++ closes t2.
Proof. unfold closes. apply flat_map_app. Qed.

Lemma session_only t :
  Forall (fun a => on_calls is_session_call a = true) t ->
  closes t = [] /\ connects t = [].
Proof.
  induction 1 as [| a t Ha _ [IH1 IH2]]; [auto | ].
  change (a :: t) with ([a] ++ t). rewrite closes_app, connects_app, IH1, IH2.
  destruct a as [[] r | lvl msg]; try discriminate; auto.
Qed.

Lemma not_closing t :
  Forall (fun a => on_calls (fun c => is_teardown_call c || is_send c) a = true) t ->
  closes t = [] /\ connects t = [].
Proof.
  induction 1 as [| a t Ha _ [IH1 IH2]]; [auto | ].
  change (a :: t) with ([a] ++ t). rewrite closes_app, connects_app, IH1, IH2.
  destruct a as [[] r | lvl msg]; try discriminate; auto.
Qed.

(** The connection of [load_dataset]: closed last and once if it was
    opened, never touched if not. *)
Lemma load_dataset_closes w cfg :
  sat (load_dataset w cfg) (fun t _ =>
    if connected t
    then exists pre rcl, t = pre ++ [Call conn_close rcl] /\ closes pre = []
    else closes t = []).
Proof.
  unfold load_dataset.
  apply sat_log_bind.
  apply sat_invoke_bind; [intros e; reflexivity | intros r1 H1].
  apply sat_invoke_bind; [intros e; reflexivity | intros r2 H2].
  apply sat_log_bind.
  apply sat_invoke_bind; [intros e; reflexivity | intros rb Hb].
  destruct rb as [e | | l | sql | a b c]; simpl;
    try (apply sat_raise_bind; reflexivity).
  apply sat_ret_bind.
  apply sat_invoke_bind; [intros e; reflexivity | intros rs Hs].
  apply sat_invoke_bind; [intros e; reflexivity | intros rce Hce].
  apply sat_invoke_bind; [intros e; reflexivity | intros rcon Hcon].
  eapply sat_finally with
    (Q1 := fun t _ => Forall (fun a => on_calls is_session_call a = true) t)
    (Q2 := fun t _ => exists rcl, t = [Call conn_close rcl]).
  - assert (He : emits (on_calls is_session_call) (populate w cfg rs))
      by (unfold populate, sts_assume_role, execute; repeat emits_step).
    exact He.
  - apply sat_invoke_bind.
    + intros e. exists (Raised e). reflexivity.
    + intros r Hr. apply sat_ret. exists r. reflexivity.
  - intros t1 r1' t2 r2' Hpop (rcl & ->).
    destruct (session_only t1 Hpop) as [Hcl Hco].
    unfold connected. simpl. rewrite connects_app, Hco. simpl.
    rewrite Hcon. simpl.
    eexists (_ :: _ :: _ :: _ :: _ :: _ :: _ :: _ :: t1), rcl.
    split; [reflexivity | ]. simpl. exact Hcl.
Qed.

Section CreateLayout.

Variable w : world.
Variable cfg : config.

(** The trace of the handler on a Create event, part by part. *)
Lemma create_layout event h :
  event !! "RequestType" = Some CREATE ->
  let h1 := h ++ [Log WARNING (LEvent event)] in
  let tc := trace (terraform_cleanup w cfg) h1 in
  let tl := trace (load_dataset w cfg) (h1 ++ tc) in
  exists tail,
    trace (lambda_handler w cfg event) h = Log WARNING (LEvent event) :: tc ++ tl ++ tail /\
    Forall (fun a => on_calls is_send a = true) tail /\
    provisioning_raised w cfg event h = is_raise (outcome (load_dataset w cfg) (h1 ++ tc)).
Proof.
  intros E h1 tc tl.
  destruct (lambda_handler_layout w cfg event h) as (tail & Ht & Htail). fold h1 in Ht.
  assert (Hd : dispatch w cfg event h1 = provisioning_step w cfg h1).
  { rewrite dispatch_run, E. reflexivity. }
  destruct (provisioning_step_run w cfg h1) as [Hp Ho]. cbv zeta in Hp, Ho. fold tc in Hp, Ho.
  fold tl in Hp.
  exists tail. split; [ | split; [exact Htail | ]].
  - rewrite Ht. unfold trace at 1. rewrite Hd. fold (trace (provisioning_step w cfg) h1).
    rewrite Hp, <- app_assoc. reflexivity.
  - unfold provisioning_raised. rewrite E. fold h1. rewrite Ho. reflexivity.
Qed.

End CreateLayout.

(** X9: a Create event that is answered [SUCCESS] hides no failure of the
    load: every call of the run that raised is a call of the teardown,
    whose handlers log it, or the report itself.  Fetching the script,
    splitting it, opening and closing the connection, every statement, the
    request for credentials and the import all returned. *)
Theorem success_hides_only_teardown_failures (w : world) (cfg : config)
    (event : gmap string string) (h : history) :
  event !! "RequestType" = Some CREATE ->
  let t := trace (lambda_handler w cfg event) h in
  In SUCCESS (signals t) ->
  forall c e, In (Call c (Raised e)) t -> is_teardown_call c = true \/ is_send c = true.
Proof.
  intros E t Hsig c e Hin. subst t.
  destruct (create_layout w cfg event h E) as (tail & Ht & Htail & Hp).
  destruct (create_signals w cfg event h E) as [Hfail _].
  destruct (provisioning_raised w cfg event h) eqn:Hpr.
  { rewrite (Hfail eq_refl) in Hsig. destruct Hsig as [Hsig | []]. discriminate. }
  rewrite Ht in Hin. destruct Hin as [Hin | Hin]; [discriminate | ].
  apply in_app_or in Hin as [Hin | Hin].
  - left. pose proof (terraform_cleanup_emits w cfg (h ++ [Log WARNING (LEvent event)])) as Hc.
    simpl in Hc. rewrite List.Forall_forall in Hc. exact (Hc _ Hin).
  - apply in_app_or in Hin as [Hin | Hin].
    + exfalso.
      pose proof (load_dataset_strict w cfg
                    (h ++ [Log WARNING (LEvent event)] ++
                     trace (terraform_cleanup w cfg) (h ++ [Log WARNING (LEvent event)]))) as Hs.
      rewrite app_assoc in Hs. simpl in Hs. specialize (Hs (eq_sym Hp)).
      rewrite List.Forall_forall in Hs. specialize (Hs _ Hin). discriminate.
    + right. rewrite List.Forall_forall in Htail. exact (Htail _ Hin).
Qed.

Lemma success_hides_only_teardown_failures_witness :
  is_teardown_call (glue_delete_job "de-c4w4a1-rds-extract-job") = true \/
  is_send (glue_delete_job "de-c4w4a1-rds-extract-job") = true.
Proof.
  apply (success_hides_only_teardown_failures no_jobs_world default_config
           {[ "RequestType" := "Create" ]} [])
    with (e := ClientError "EntityNotFoundException").
  - reflexivity.
  - vm_compute. left. reflexivity.
  - vm_compute. repeat (first [left; reflexivity | right]).
Defined.

(** X10: a Create event is answered [SUCCESS] only after the whole load:
    [sqlparse.split] returned a list of statements, every one of them was
    executed, in order, and then the import formatted with the credentials
    that [assume_role] returned, and none of these executions raised. *)
Theorem success_means_loaded (w : world) (cfg : config)
    (event : gmap string string) (h : history) :
  event !! "RequestType" = Some CREATE ->
  let t := trace (lambda_handler w cfg event) h in
  In SUCCESS (signals t) ->
  exists stmts a s k,
    splits t = [RNames stmts] /\
    In (Call (assume_role_call cfg) (RCreds a s k)) t /\
    map fst (executes t) =
      stmts ++ [format_load (BUCKET_NAME cfg) (BUCKET_PATH cfg) a s k] /\
    Forall (fun x => is_raised x.2 = false) (executes t).
Proof.
  intros E t Hsig. subst t.
  destruct (create_signals w cfg event h E) as [Hfail _].
  destruct (provisioning_raised w cfg event h) eqn:Hpr.
  { rewrite (Hfail eq_refl) in Hsig. destruct Hsig as [Hsig | []]. discriminate. }
  destruct (create_summary w cfg event h E)
    as [(_ & _ & Hr) | (stmts & ok & Hsp & Hpt & _ & Hok)].
  { rewrite Hpr in Hr. discriminate. }
  rewrite Hpr in Hok. specialize (Hok eq_refl). subst ok.
  rewrite <- executes_session.
  remember (session_actions (trace (lambda_handler w cfg event) h)) as ts eqn:Hts.
  remember true as ok eqn:Hok in Hpt.
  destruct Hpt as [k s e t0 Hk Hran | t0 r Hran _ | t0 a b c r Hran]; try discriminate.
  apply ran_executes in Hran as (Hmap & Hall & _).
  exists stmts, a, b, c. split; [exact Hsp | ]. split; [ | split].
  - apply in_session_actions_inv. rewrite <- Hts. apply in_or_app. right. left. reflexivity.
  - rewrite executes_app, map_app, Hmap. reflexivity.
  - rewrite executes_app. apply Forall_app. split; [exact Hall | ].
    repeat constructor. simpl. destruct (is_raised r); [discriminate | reflexivity].
Qed.

Lemma success_means_loaded_witness :
  let event : gmap string string := {[ "RequestType" := "Create" ]} in
  exists stmts a s k,
    splits (trace (lambda_handler five_statements_world default_config event) []) =
      [RNames stmts] /\
    In (Call (assume_role_call default_config) (RCreds a s k))
       (trace (lambda_handler five_statements_world default_config event) []) /\
    map fst (executes (trace (lambda_handler five_statements_world default_config event) [])) =
      stmts ++ [format_load (BUCKET_NAME default_config) (BUCKET_PATH default_config) a s k] /\
    Forall (fun x => is_raised x.2 = false)
      (executes (trace (lambda_handler five_statements_world default_config event) [])).
Proof.
  intros event.
  apply (success_means_loaded five_statements_world default_config event []).
  - reflexivity.
  - vm_compute. left. reflexivity.
Defined.

(** X11: on a Create event the connection is closed exactly once if
    [engine.connect()] returned, whatever happened inside the [with]
    block, and after the close the handler only reports; if no connection
    was opened, [close] is never called. *)
Theorem connection_closed_once (w : world) (cfg : config)
    (event : gmap string string) (h : history) :
  event !! "RequestType" = Some CREATE ->
  let t := trace (lambda_handler w cfg event) h in
  (connected t = true ->
   exists pre rcl post,
     t = pre ++ Call conn_close rcl :: post /\
     closes pre = [] /\
     Forall (fun a => on_calls is_send a = true) post) /\
  (connected t = false -> closes t = []).
Proof.
  intros E t. subst t.
  destruct (create_layout w cfg event h E) as (tail & Ht & Htail & _).
  set (h1 := h ++ [Log WARNING (LEvent event)]) in *.
  set (tc := trace (terraform_cleanup w cfg) h1) in *.
  pose proof (load_dataset_closes w cfg (h1 ++ tc)) as Hl. simpl in Hl.
  set (tl := trace (load_dataset w cfg) (h1 ++ tc)) in *.
  pose proof (terraform_cleanup_emits w cfg h1) as Hc. fold tc in Hc. simpl in Hc.
  assert (Hc' : closes tc = [] /\ connects tc = []).
  { apply not_closing. eapply Forall_impl; [exact Hc | ].
    intros [c r | lvl msg] Ha; [simpl in *; rewrite Ha; reflexivity | reflexivity]. }
  assert (Ht' : closes tail = [] /\ connects tail = []).
  { apply not_closing. eapply Forall_impl; [exact Htail | ].
    intros [c r | lvl msg] Ha; [simpl in *; rewrite Ha; apply orb_true_r | reflexivity]. }
  destruct Hc' as [Hc1 Hc2], Ht' as [Ht1 Ht2].
  assert (Hcon : connected (trace (lambda_handler w cfg event) h) = connected tl).
  { rewrite Ht. unfold connected.
    change (Log WARNING (LEvent event) :: tc ++ tl ++ tail)
      with ([Log WARNING (LEvent event)] ++ tc ++ tl ++ tail).
    rewrite !connects_app, Hc2, Ht2, app_nil_r. reflexivity. }
  rewrite Hcon. rewrite Ht. clearbody tl tc. split; intros Hco; rewrite Hco in Hl.
  - destruct Hl as (pre & rcl & -> & Hpre).
    exists (Log WARNING (LEvent event) :: tc ++ pre), rcl, tail.
    split; [simpl; rewrite <- !app_assoc; reflexivity | ]. split; [ | exact Htail].
    change (Log WARNING (LEvent event) :: tc ++ pre)
      with ([Log WARNING (LEvent event)] ++ tc ++ pre).
    rewrite !closes_app, Hc1, Hpre. reflexivity.
  - change (Log WARNING (LEvent event) :: tc ++ tl ++ tail)
      with ([Log WARNING (LEvent event)] ++ tc ++ tl ++ tail).
    rewrite !closes_app, Hc1, Hl, Ht1. reflexivity.
Qed.

Lemma connection_closed_once_witness :
  let event : gmap string string := {[ "RequestType" := "Create" ]} in
  exists pre rcl post,
    trace (lambda_handler third_fails_world default_config event) [] =
      pre ++ Call conn_close rcl :: post /\
    closes pre = [] /\
    Forall (fun a => on_calls is_send a = true) post.
Proof.
  intros event.
  apply (connection_closed_once third_fails_world default_config event []).
  - reflexivity.
  - reflexivity.
Defined.

(** *** The configuration *)














